(** * pokitdok-nodejs: the authenticated request pipeline of [index.js]

    A shallow embedding of [refreshAccessToken], the [PokitDok] constructor
    and [PokitDok.prototype.apiRequest], together with the part of the
    JavaScript runtime these functions rely on ([JSON.parse], string
    conversion, truthiness, property access), followed by the properties of
    the single-flight refresh-and-replay mechanism.

    The functions run in a monad that carries the connection, collects
    what they do to the outside (calls of the transport, calls of
    callbacks) and may end in an exception.  The transport is asynchronous:
    [request] returns at once, and its completion handler runs later, once.
    The event loop at the end of the model makes this explicit: its events
    are the calls of [apiRequest] by a caller and the completions of pending
    transport calls, in any order.  Callbacks are the caller's functions:
    they are taken to return, and to leave the fields of the connection
    alone.

    The resource functions ([activities], [claims], [providers] and the
    others) are modelled up to their call of [apiRequest]: each gives the
    object literal and the callback it passes on, or throws. *)

From Stdlib Require Import List String Ascii Bool ZArith NArith Lia Arith.
Import ListNotations.

Local Open Scope string_scope.
Local Set Warnings "-register-all".

(* ===================================================================== *)
(** * JavaScript values *)
(* ===================================================================== *)

(** The values the pipeline handles are [undefined] and whatever
    [JSON.parse] can build.  An object is the list of its own properties in
    insertion order.  A number is kept as the text it was read from; it
    prints as that text, and is falsy when the digits before its exponent
    are all zero.  No property below depends on a numeric value.  Text is a
    string of bytes. *)
Inductive value : Type :=
| Undefined
| Null
| Bool (b : bool)
| Num (lexeme : string)
| Str (s : string)
| Arr (elems : list value)
| Obj (props : list (string * value)).

(** Exceptions raised by the runtime. *)
Inductive exn : Type :=
| SyntaxError
| TypeError.

(** The double quote, and a text with every single quote turned into a
    double one: the way the JSON texts below are written. *)
Definition dquote : ascii := "034"%char.

Fixpoint quoted (s : string) : string :=
  match s with
  | EmptyString => EmptyString
  | String c r => String (if Ascii.eqb c "'" then dquote else c) (quoted r)
  end.

(** [typeof v == 'string'] *)
Definition is_string (v : value) : bool :=
  match v with Str _ => true | _ => false end.

(** [s.indexOf(c)]: the first position of [c], or [-1]. *)
Fixpoint indexOf (c : ascii) (s : string) : Z :=
  match s with
  | EmptyString => (-1)%Z
  | String d r =>
      if Ascii.eqb d c then 0%Z
      else let i := indexOf c r in
           if (i <? 0)%Z then (-1)%Z else (i + 1)%Z
  end.

Definition is_digit (c : ascii) : bool :=
  let n := nat_of_ascii c in ((48 <=? n) && (n <=? 57))%nat.

Definition is_nonzero_digit (c : ascii) : bool :=
  let n := nat_of_ascii c in ((49 <=? n) && (n <=? 57))%nat.

(** The mantissa of a number's text has a non-zero digit. *)
Fixpoint lexeme_nonzero (s : string) : bool :=
  match s with
  | EmptyString => false
  | String c r =>
      if Ascii.eqb c "e" || Ascii.eqb c "E" then false
      else is_nonzero_digit c || lexeme_nonzero r
  end.

(** Truthiness, as tested by [!x], [x && y] and [x || y]. *)
Definition truthy (v : value) : bool :=
  match v with
  | Undefined | Null => false
  | Bool b => b
  | Num n => lexeme_nonzero n
  | Str s => negb (String.eqb s "")
  | Arr _ | Obj _ => true
  end.

Fixpoint lookup (k : string) (m : list (string * value)) : option value :=
  match m with
  | [] => None
  | (k', v) :: r => if String.eqb k k' then Some v else lookup k r
  end.

(** [v.name], for a [name] that no built-in prototype defines (the source
    reads [meta] and [access_token] only): reading a property of
    [undefined] or [null] throws, a missing property is [undefined]. *)
Definition get_prop (v : value) (name : string) : exn + value :=
  match v with
  | Undefined | Null => inl TypeError
  | Obj m => inr (match lookup name m with Some x => x | None => Undefined end)
  | _ => inr Undefined
  end.

(** String conversion, as performed by ['...' + v] and by [JSON.parse(v)]
    on a [v] that is not a string.  An object built by [JSON.parse] prints
    as [[object Object]] unless it has an own property [toString], which
    is then not callable and makes the conversion throw; an array joins
    its elements with commas, [null] and [undefined] printing as nothing. *)
Fixpoint ToString (v : value) : exn + string :=
  match v with
  | Undefined => inr "undefined"
  | Null => inr "null"
  | Bool true => inr "true"
  | Bool false => inr "false"
  | Num n => inr n
  | Str s => inr s
  | Arr l =>
      let elem (x : value) : exn + string :=
        match x with
        | Undefined | Null => inr ""
        | _ => ToString x
        end in
      (fix join (l : list value) : exn + string :=
         match l with
         | [] => inr ""
         | [x] => elem x
         | x :: r =>
             match elem x with
             | inl e => inl e
             | inr sx =>
                 match join r with
                 | inl e => inl e
                 | inr sr => inr (sx ++ "," ++ sr)
                 end
             end
         end) l
  | Obj m =>
      match lookup "toString" m with
      | Some _ => inl TypeError
      | None => inr "[object Object]"
      end
  end.

(* ===================================================================== *)
(** * JSON.parse *)
(* ===================================================================== *)

Module JSON.

Definition is_ws (c : ascii) : bool :=
  let n := nat_of_ascii c in
  ((n =? 32) || (n =? 9) || (n =? 10) || (n =? 13))%nat.

Fixpoint skip_ws (s : string) : string :=
  match s with
  | String c r => if is_ws c then skip_ws r else s
  | EmptyString => s
  end.

Fixpoint span_digits (s : string) : string * string :=
  match s with
  | String c r =>
      if is_digit c then let (ds, rest) := span_digits r in (String c ds, rest)
      else (EmptyString, s)
  | EmptyString => (EmptyString, s)
  end.

Definition hex_digit (c : ascii) : option N :=
  let n := N_of_ascii c in
  if (48 <=? n)%N && (n <=? 57)%N then Some (n - 48)%N
  else if (65 <=? n)%N && (n <=? 70)%N then Some (n - 55)%N
  else if (97 <=? n)%N && (n <=? 102)%N then Some (n - 87)%N
  else None.

(** A code unit written [\uXXXX], as text: one character below 128, its
    UTF-8 bytes above. *)
Definition code_unit (u : N) : string :=
  if (u <? 128)%N then String (ascii_of_N u) EmptyString
  else if (u <? 2048)%N then
    String (ascii_of_N (192 + u / 64))
      (String (ascii_of_N (128 + u mod 64)) EmptyString)
  else
    String (ascii_of_N (224 + u / 4096))
      (String (ascii_of_N (128 + (u / 64) mod 64))
         (String (ascii_of_N (128 + u mod 64)) EmptyString)).

Definition escape (c : ascii) : option ascii :=
  if Ascii.eqb c dquote then Some dquote
  else if Ascii.eqb c "\" then Some "\"%char
  else if Ascii.eqb c "/" then Some "/"%char
  else if Ascii.eqb c "b" then Some (ascii_of_nat 8)
  else if Ascii.eqb c "f" then Some (ascii_of_nat 12)
  else if Ascii.eqb c "n" then Some (ascii_of_nat 10)
  else if Ascii.eqb c "r" then Some (ascii_of_nat 13)
  else if Ascii.eqb c "t" then Some (ascii_of_nat 9)
  else None.

(** The characters of a string literal, after its opening quote. *)
Fixpoint chars (s : string) : option (string * string) :=
  match s with
  | EmptyString => None
  | String c r =>
      if Ascii.eqb c dquote then Some (EmptyString, r)
      else if Ascii.eqb c "\" then
        match r with
        | String "u" (String h1 (String h2 (String h3 (String h4 r')))) =>
            match hex_digit h1, hex_digit h2, hex_digit h3, hex_digit h4 with
            | Some a, Some b, Some c, Some d =>
                match chars r' with
                | Some (t, rest) =>
                    Some (code_unit (a * 4096 + b * 256 + c * 16 + d) ++ t, rest)
                | None => None
                end
            | _, _, _, _ => None
            end
        | String e r' =>
            match escape e with
            | Some x =>
                match chars r' with
                | Some (t, rest) => Some (String x t, rest)
                | None => None
                end
            | None => None
            end
        | EmptyString => None
        end
      else if (nat_of_ascii c <? 32)%nat then None
      else
        match chars r with
        | Some (t, rest) => Some (String c t, rest)
        | None => None
        end
  end.

(** The text after the character [c], when the text starts with it. *)
Definition eat (c : ascii) (s : string) : option string :=
  match s with
  | String d r => if Ascii.eqb d c then Some r else None
  | EmptyString => None
  end.

(** A number: an optional minus sign, then [0] or a non-zero digit and
    more digits, then an optional fraction (a dot and digits) and an
    optional exponent ([e] or [E], an optional sign, digits).  The result
    is the text of the number and the text after it. *)
Definition integer (s : string) : option (string * string) :=
  match s with
  | String c r =>
      if Ascii.eqb c "0" then Some ("0", r)
      else if is_nonzero_digit c then
        let (ds, rest) := span_digits r in Some (String c ds, rest)
      else None
  | EmptyString => None
  end.

Definition fraction (s : string) : option (string * string) :=
  match eat "." s with
  | Some r =>
      let (ds, rest) := span_digits r in
      if String.eqb ds "" then None else Some (String "." ds, rest)
  | None => Some ("", s)
  end.

Definition exponent (s : string) : option (string * string) :=
  match s with
  | String c r =>
      if Ascii.eqb c "e" || Ascii.eqb c "E" then
        let (sg, r1) :=
          match eat "+" r with
          | Some r' => ("+", r')
          | None =>
              match eat "-" r with
              | Some r' => ("-", r')
              | None => ("", r)
              end
          end in
        let (ds, rest) := span_digits r1 in
        if String.eqb ds "" then None else Some (String c sg ++ ds, rest)
      else Some ("", s)
  | EmptyString => Some ("", s)
  end.

Definition number (s : string) : option (string * string) :=
  let (sign, s1) :=
    match eat "-" s with
    | Some r => ("-", r)
    | None => ("", s)
    end in
  match integer s1 with
  | None => None
  | Some (i, s2) =>
      match fraction s2 with
      | None => None
      | Some (f, s3) =>
          match exponent s3 with
          | None => None
          | Some (e, s4) => Some (sign ++ i ++ f ++ e, s4)
          end
      end
  end.

(** The text after the word [w], when the text starts with it. *)
Fixpoint after (w s : string) : option string :=
  match w, s with
  | EmptyString, _ => Some s
  | String a w', String b s' => if Ascii.eqb a b then after w' s' else None
  | String _ _, EmptyString => None
  end.

Definition literal (w : string) (v : value) (s : string)
  : option (value * string) :=
  match after w s with
  | Some rest => Some (v, rest)
  | None => None
  end.

(** Defining a property: a repeated key keeps its place and takes the
    later value. *)
Fixpoint define (k : string) (v : value) (m : list (string * value))
  : list (string * value) :=
  match m with
  | [] => [(k, v)]
  | (k', v') :: r =>
      if String.eqb k k' then (k', v) :: r else (k', v') :: define k v r
  end.

(** One value, with the text that follows it.  [None] is a syntax error;
    the fuel bounds the number of nested calls. *)
Fixpoint parse_value (fuel : nat) (s : string) : option (value * string) :=
  match fuel with
  | O => None
  | S fuel =>
      match skip_ws s with
      | EmptyString => None
      | String c r as s1 =>
          if Ascii.eqb c "{" then
            match eat "}" (skip_ws r) with
            | Some r' => Some (Obj [], r')
            | None => parse_members fuel [] (skip_ws r)
            end
          else if Ascii.eqb c "[" then
            match eat "]" (skip_ws r) with
            | Some r' => Some (Arr [], r')
            | None => parse_elements fuel [] (skip_ws r)
            end
          else if Ascii.eqb c dquote then
            match chars r with
            | Some (t, rest) => Some (Str t, rest)
            | None => None
            end
          else if Ascii.eqb c "t" then literal "true" (Bool true) s1
          else if Ascii.eqb c "f" then literal "false" (Bool false) s1
          else if Ascii.eqb c "n" then literal "null" Null s1
          else
            match number s1 with
            | Some (n, rest) => Some (Num n, rest)
            | None => None
            end
      end
  end

with parse_elements (fuel : nat) (acc : list value) (s : string)
  : option (value * string) :=
  match fuel with
  | O => None
  | S fuel =>
      match parse_value fuel s with
      | None => None
      | Some (v, r) =>
          match eat "," (skip_ws r) with
          | Some r' => parse_elements fuel (v :: acc) r'
          | None =>
              match eat "]" (skip_ws r) with
              | Some r' => Some (Arr (rev (v :: acc)), r')
              | None => None
              end
          end
      end
  end

with parse_members (fuel : nat) (acc : list (string * value)) (s : string)
  : option (value * string) :=
  match fuel with
  | O => None
  | S fuel =>
      match eat dquote (skip_ws s) with
      | None => None
      | Some r =>
          match chars r with
          | None => None
          | Some (k, r1) =>
              match eat ":" (skip_ws r1) with
              | None => None
              | Some r2 =>
                  match parse_value fuel r2 with
                  | None => None
                  | Some (v, r3) =>
                      match eat "," (skip_ws r3) with
                      | Some r4 => parse_members fuel (define k v acc) r4
                      | None =>
                          match eat "}" (skip_ws r3) with
                          | Some r4 => Some (Obj (define k v acc), r4)
                          | None => None
                          end
                      end
                  end
              end
          end
      end
  end.

(** [JSON.parse(text)] for a string [text]. *)
Definition parse_text (s : string) : exn + value :=
  match parse_value (2 * String.length s + 2) s with
  | Some (v, rest) =>
      match skip_ws rest with
      | EmptyString => inr v
      | _ => inl SyntaxError
      end
  | None => inl SyntaxError
  end.

(** [JSON.parse(v)]: the argument is converted to a string first. *)
Definition parse (v : value) : exn + value :=
  match ToString v with
  | inl e => inl e
  | inr s => parse_text s
  end.

End JSON.

(** [new Buffer(s).toString('base64')] *)
Definition base64_alphabet : string :=
  "ABCDEFGHIJKLMNOPQRSTUVWXYZabcdefghijklmnopqrstuvwxyz0123456789+/".

Definition base64_char (n : N) : ascii :=
  match String.get (N.to_nat n) base64_alphabet with
  | Some c => c
  | None => "="%char
  end.

Fixpoint base64 (s : string) : string :=
  match s with
  | EmptyString => EmptyString
  | String a EmptyString =>
      let x := N_of_ascii a in
      String (base64_char (x / 4))
        (String (base64_char ((x mod 4) * 16)) "==")
  | String a (String b EmptyString) =>
      let x := N_of_ascii a in
      let y := N_of_ascii b in
      String (base64_char (x / 4))
        (String (base64_char ((x mod 4) * 16 + y / 16))
           (String (base64_char ((y mod 16) * 4)) "="))
  | String a (String b (String c r)) =>
      let x := N_of_ascii a in
      let y := N_of_ascii b in
      let z := N_of_ascii c in
      String (base64_char (x / 4))
        (String (base64_char ((x mod 4) * 16 + y / 16))
           (String (base64_char ((y mod 16) * 4 + z / 64))
              (String (base64_char (z mod 64)) (base64 r))))
  end.

(* ===================================================================== *)
(** * The data of the pipeline *)
(* ===================================================================== *)

(** module globals *)
Definition userAgent : string := "pokitdok-nodejs@0.0.1".
Definition baseUrl : string := "https://platform.pokitdok.com".

(** A caller's function.  [callback && callback(...)] makes the argument
    optional: [None] is a call without a callback.  A function is known by
    its identity only; what it does when called is the caller's business,
    and it is taken to return. *)
Definition fn : Type := nat.

Record Headers : Type := mkHeaders {
  Authorization : string;
  User_Agent : string
}.

(** The [options] object of [apiRequest]: the keys of its documentation
    ([path], [method], [qs], [json]) and [formData], the [url] and
    [headers] that [apiRequest] writes, and [oid], the identity of the
    object, which no code reads. *)
Record Options : Type := mkOptions {
  oid : nat;
  path : string;
  method : option string;
  qs : value;
  json : value;
  formData : value;
  url : option string;
  headers : option Headers
}.

Definition set_url (o : Options) (u : string) : Options :=
  mkOptions (oid o) (path o) (method o) (qs o) (json o) (formData o)
    (Some u) (headers o).

Definition set_headers (o : Options) (h : Headers) : Options :=
  mkOptions (oid o) (path o) (method o) (qs o) (json o) (formData o)
    (url o) (Some h).

(** The options of the token call. *)
Record TokenOptions : Type := mkTokenOptions {
  uri : string;
  token_method : string;
  token_headers : Headers;
  form_grant_type : string
}.

(** The response object [res] handed over by the transport. *)
Record Response : Type := mkResponse {
  statusCode : Z;
  res_body : value
}.

Definition set_body (r : Response) (b : value) : Response :=
  mkResponse (statusCode r) b.

(** A transport error. *)
Inductive jserror : Type := Error (message : string).

(** The connection: the fields set by the constructor. *)
Record Session : Type := mkSession {
  clientId : string;
  clientSecret : string;
  version : string;
  refreshActive : bool;
  retryQueue : list (Options * option fn);
  accessToken : value
}.

Definition set_refreshActive (b : bool) (c : Session) : Session :=
  mkSession (clientId c) (clientSecret c) (version c) b
    (retryQueue c) (accessToken c).

Definition set_retryQueue (q : list (Options * option fn)) (c : Session)
  : Session :=
  mkSession (clientId c) (clientSecret c) (version c) (refreshActive c)
    q (accessToken c).

Definition set_accessToken (t : value) (c : Session) : Session :=
  mkSession (clientId c) (clientSecret c) (version c) (refreshActive c)
    (retryQueue c) t.

(** The second argument of a callback: the response, or the data. *)
Inductive payload : Type :=
| AResponse (r : Response)
| AData (d : value).

(** What a function of the pipeline does to the outside. *)
Inductive effect : Type :=
| Request (options : Options) (callback : option fn)
    (** [request(options, function (err, res, body) {...})] of
        [apiRequest]; the completion handler holds [options] and
        [callback] *)
| TokenRequest (t : TokenOptions) (options : Options) (callback : option fn)
    (** the [request] of [refreshAccessToken]; its completion handler
        holds the [callback] of the call that issued it *)
| Call (f : fn) (err : value) (arg : payload)
    (** [callback(err, arg)] *).

(* ===================================================================== *)
(** * A monad for the connection state, the effects and exceptions *)
(* ===================================================================== *)

Inductive outcome (A : Type) : Type :=
| Return (a : A)
| Throw (e : exn)
| OutOfFuel.

Arguments Return {A} a.
Arguments Throw {A} e.
Arguments OutOfFuel {A}.

Record result (A : Type) : Type := mkResult {
  state : Session;
  effects : list effect;
  out : outcome A
}.

Arguments mkResult {A} state effects out.
Arguments state {A} r.
Arguments effects {A} r.
Arguments out {A} r.

Definition M (A : Type) : Type := Session -> result A.

Definition ret {A} (a : A) : M A := fun c => mkResult c [] (Return a).

Definition bind {A B} (m : M A) (k : A -> M B) : M B :=
  fun c =>
    let r := m c in
    match out r with
    | Return a =>
        let r' := k a (state r) in
        mkResult (state r') (effects r ++ effects r') (out r')
    | Throw e => mkResult (state r) (effects r) (Throw e)
    | OutOfFuel => mkResult (state r) (effects r) OutOfFuel
    end.

Definition throw {A} (e : exn) : M A := fun c => mkResult c [] (Throw e).
Definition out_of_fuel {A} : M A := fun c => mkResult c [] OutOfFuel.
Definition get : M Session := fun c => mkResult c [] (Return c).
Definition modify (f : Session -> Session) : M unit :=
  fun c => mkResult (f c) [] (Return tt).
Definition emit (e : effect) : M unit := fun c => mkResult c [e] (Return tt).

(** A runtime operation that may throw. *)
Definition lift {A} (x : exn + A) : M A :=
  match x with
  | inl e => throw e
  | inr a => ret a
  end.

(** [res.field]: [res] is [undefined] when the transport gave none. *)
Definition deref {A} (x : option A) : M A :=
  match x with
  | Some a => ret a
  | None => throw TypeError
  end.

Declare Scope pipeline_scope.
Delimit Scope pipeline_scope with pipeline.
Notation "x <- m ;; k" := (bind m (fun x => k))
  (at level 61, m at next level, right associativity) : pipeline_scope.
Notation "m ;; k" := (bind m (fun _ => k))
  (at level 61, right associativity) : pipeline_scope.
Local Open Scope pipeline_scope.

(** [callback && callback(err, arg)] *)
Definition invoke (callback : option fn) (err : value) (arg : payload)
  : M unit :=
  match callback with
  | Some f => emit (Call f err arg)
  | None => ret tt
  end.

(* ===================================================================== *)
(** * The functions of [index.js] *)
(* ===================================================================== *)

(** [function PokitDok(clientId, clientSecret, version)] *)
Definition PokitDok (clientId clientSecret : string) (version : option string)
  : Session :=
  mkSession clientId clientSecret
    (match version with
     | Some v => if String.eqb v "" then "v4" else v
     | None => "v4"
     end)
    false [] Null.

(** [PokitDok.prototype.apiRequest], up to the call of [request]. *)
Definition apiRequest (options : Options) (callback : option fn) : M unit :=
  self <- get ;;
  let options :=
    set_url options (baseUrl ++ "/api/" ++ version self ++ path options) in
  token <- lift (ToString (accessToken self)) ;;
  let options :=
    set_headers options (mkHeaders ("Bearer " ++ token) userAgent) in
  emit (Request options callback).

(** [refreshAccessToken], up to the call of [request]. *)
Definition refreshAccessToken (options : Options) (callback : option fn)
  : M unit :=
  modify (fun c => set_retryQueue (retryQueue c ++ [(options, callback)]) c) ;;
  context <- get ;;
  if refreshActive context then ret tt
  else
    modify (set_refreshActive true) ;;
    emit (TokenRequest
            (mkTokenOptions (baseUrl ++ "/oauth2/token") "POST"
               (mkHeaders
                  ("Basic " ++
                   base64 (clientId context ++ ":" ++ clientSecret context))
                  userAgent)
               "client_credentials")
            options callback).

(** [while (0 < context.retryQueue.length) { var reqArgs =
    context.retryQueue.pop(); context.apiRequest(reqArgs[0], reqArgs[1]); }]:
    [pop] takes the last entry.  The fuel bounds the number of turns. *)
Fixpoint replay (fuel : nat) : M unit :=
  context <- get ;;
  match rev (retryQueue context) with
  | [] => ret tt
  | reqArgs :: rest =>
      match fuel with
      | O => out_of_fuel
      | S fuel =>
          modify (set_retryQueue (rev rest)) ;;
          apiRequest (fst reqArgs) (snd reqArgs) ;;
          replay fuel
      end
  end.

(** The completion handler of the token call; [callback] is the one
    [refreshAccessToken] was called with. *)
Definition refreshHandler (callback : option fn)
    (err : option jserror) (res : option Response) (body : value) : M unit :=
  modify (set_refreshActive false) ;;
  r <- deref res ;;
  if negb (statusCode r =? 200)%Z then
    modify (set_retryQueue []) ;;
    invoke callback (res_body r) (AResponse r)
  else
    token <- lift (JSON.parse body) ;;
    access_token <- lift (get_prop token "access_token") ;;
    modify (set_accessToken access_token) ;;
    context <- get ;;
    replay (List.length (retryQueue context)).

(** The first statement of the completion handler of [apiRequest]:
    [if (!options.json && typeof body == 'string' && body.indexOf('{') === 0)
    { body = JSON.parse(body); res.body = JSON.parse(res.body); }].
    The result is the pair of [res] and [body] the rest of the handler
    sees. *)
Definition preparse (options : Options) (res : option Response) (body : value)
  : exn + (option Response * value) :=
  if negb (truthy (json options))
     && match body with
        | Str s => (indexOf "{" s =? 0)%Z
        | _ => false
        end
  then
    match JSON.parse body with
    | inl e => inl e
    | inr body' =>
        match res with
        | None => inl TypeError
        | Some r =>
            match JSON.parse (res_body r) with
            | inl e => inl e
            | inr b => inr (Some (set_body r b), body')
            end
        end
    end
  else inr (res, body).

(** [res.statusCode == 401 || (res.statusCode == 400 && !body.meta)] *)
Definition authFailure (r : Response) (body : value) : exn + bool :=
  if (statusCode r =? 401)%Z then inr true
  else if (statusCode r =? 400)%Z then
    match get_prop body "meta" with
    | inl e => inl e
    | inr meta => inr (negb (truthy meta))
    end
  else inr false.

(** [try { data = JSON.parse(body); } catch (err) { data = body; }] *)
Definition parse_or_raw (body : value) : value :=
  match JSON.parse body with
  | inr data => data
  | inl _ => body
  end.

(** The completion handler of [apiRequest]. *)
Definition apiHandler (options : Options) (callback : option fn)
    (err : option jserror) (res : option Response) (body : value) : M unit :=
  parsed <- lift (preparse options res body) ;;
  let res := fst parsed in
  let body := snd parsed in
  r <- deref res ;;
  auth <- lift (authFailure r body) ;;
  if auth then refreshAccessToken options callback
  else if negb (statusCode r =? 200)%Z then
    invoke callback (res_body r) (AResponse r)
  else
    invoke callback Null (AData (parse_or_raw body)).

(* ===================================================================== *)
(** * The event loop *)
(* ===================================================================== *)

(** The connection together with the transport's pending calls.  A pending
    call is the pair of [options] and [callback] its completion handler
    holds.  [history] lists every effect so far, oldest first. *)
Record World : Type := mkWorld {
  session : Session;
  pendingApi : list (Options * option fn);
  pendingToken : list (Options * option fn);
  history : list effect;
  nextOid : nat
}.

(** What can happen: a caller calls [apiRequest] with a new options object
    (with or without a callback), or the transport completes a pending
    call, calling its handler once.  The call numbered [k] gets the options
    object [k], and its callback, when it has one, is the function [k]. *)
Inductive event : Type :=
| Calls (path : string) (method : option string) (qs json formData : value)
    (with_callback : bool)
| ApiCompletes (i : nat) (err : option jserror) (res : option Response)
    (body : value)
| TokenCompletes (i : nat) (err : option jserror) (res : option Response)
    (body : value).

Fixpoint requests (l : list effect) : list (Options * option fn) :=
  match l with
  | [] => []
  | Request o cb :: r => (o, cb) :: requests r
  | _ :: r => requests r
  end.

Fixpoint tokenRequests (l : list effect) : list (Options * option fn) :=
  match l with
  | [] => []
  | TokenRequest _ o cb :: r => (o, cb) :: tokenRequests r
  | _ :: r => tokenRequests r
  end.

Fixpoint called (l : list effect) : list fn :=
  match l with
  | [] => []
  | Call f _ _ :: r => f :: called r
  | _ :: r => called r
  end.

Definition remove_nth {A} (i : nat) (l : list A) : list A :=
  firstn i l ++ skipn (S i) l.

(** The world after a function of the pipeline has run: an uncaught
    exception leaves the connection as it was when it was thrown. *)
Definition absorb (pa pt : list (Options * option fn)) (h : list effect)
    (n : nat) (r : result unit) : World :=
  mkWorld (state r)
    (pa ++ requests (effects r))
    (pt ++ tokenRequests (effects r))
    (h ++ effects r)
    n.

Definition step (w : World) (e : event) : World :=
  match e with
  | Calls p m q j fd with_cb =>
      let k := nextOid w in
      absorb (pendingApi w) (pendingToken w) (history w) (S k)
        (apiRequest (mkOptions k p m q j fd None None)
           (if with_cb then Some k else None) (session w))
  | ApiCompletes i err res body =>
      match nth_error (pendingApi w) i with
      | None => w
      | Some (o, cb) =>
          absorb (remove_nth i (pendingApi w)) (pendingToken w) (history w)
            (nextOid w) (apiHandler o cb err res body (session w))
      end
  | TokenCompletes i err res body =>
      match nth_error (pendingToken w) i with
      | None => w
      | Some (o, cb) =>
          absorb (pendingApi w) (remove_nth i (pendingToken w)) (history w)
            (nextOid w) (refreshHandler cb err res body (session w))
      end
  end.

Definition run (w : World) (evs : list event) : World :=
  fold_left step evs w.

(** A new connection, nothing pending. *)
Definition boot (clientId clientSecret : string) (version : option string)
  : World :=
  mkWorld (PokitDok clientId clientSecret version) [] [] [] 0.

(* ===================================================================== *)
(** * The vocabulary of the properties *)
(* ===================================================================== *)

(** The options as [apiRequest] hands them to the transport. *)
Definition dispatched (c : Session) (token : string) (o : Options) : Options :=
  set_headers
    (set_url o (baseUrl ++ "/api/" ++ version c ++ path o))
    (mkHeaders ("Bearer " ++ token) userAgent).

(** The options of the token call. *)
Definition tokenOptions (c : Session) : TokenOptions :=
  mkTokenOptions (baseUrl ++ "/oauth2/token") "POST"
    (mkHeaders ("Basic " ++ base64 (clientId c ++ ":" ++ clientSecret c))
       userAgent)
    "client_credentials".

(** The effects of [callback && callback(err, arg)]. *)
Definition calls (cb : option fn) (err : value) (arg : payload) : list effect :=
  match cb with
  | Some f => [Call f err arg]
  | None => []
  end.

(** The replay of the queue [q] on the connection [c]. *)
Definition replayed (c : Session) (token : string)
    (q : list (Options * option fn)) : list (Options * option fn) :=
  map (fun e => (dispatched c token (fst e), snd e)) (rev q).

Definition as_requests (l : list (Options * option fn)) : list effect :=
  map (fun e => Request (fst e) (snd e)) l.

(** The options objects of a list of entries, by identity. *)
Definition ids (l : list (Options * option fn)) : list nat :=
  map (fun e => oid (fst e)) l.

Definition occurrences (k : nat) (l : list nat) : nat :=
  count_occ Nat.eq_dec l k.

(** How often the request [k] is pending, queued, or has had its callback
    called. *)
Definition pending (k : nat) (w : World) : nat :=
  occurrences k (ids (pendingApi w)).
Definition queued (k : nat) (w : World) : nat :=
  occurrences k (ids (retryQueue (session w))).
Definition answered (k : nat) (w : World) : nat :=
  occurrences k (called (history w)).

Record Inv (w : World) : Prop := mkInv {
  (** the flag is set exactly while a token call is pending, and there is
      never more than one *)
  inv_single :
    List.length (pendingToken w)
    = if refreshActive (session w) then 1 else 0;
  (** the request that started the pending token call is in the queue *)
  inv_trigger :
    forall e, In e (pendingToken w) -> In e (retryQueue (session w));
  (** a request is in one place at most, and once there *)
  inv_once :
    forall k, pending k w + queued k w + answered k w <= 1;
  (** requests not made yet are nowhere *)
  inv_fresh :
    forall k, nextOid w <= k -> pending k w + queued k w + answered k w = 0;
  (** the callback of the request [k] is the function [k] *)
  inv_own :
    forall o f,
      In (o, Some f) (pendingApi w ++ retryQueue (session w)) -> f = oid o
}.

(** Once a request is neither pending nor queued, it stays so, and its
    callback is not called any more. *)
Definition gone (k : nat) (w : World) : Prop :=
  k < nextOid w /\ pending k w + queued k w = 0.

(** The event completes a pending request, and the handler takes it for an
    authentication failure. *)
Definition authFailureEvent (w : World) (e : event) : bool :=
  match e with
  | ApiCompletes i err res body =>
      match nth_error (pendingApi w) i with
      | Some (o, cb) =>
          match preparse o res body with
          | inr (Some r, b) =>
              match authFailure r b with
              | inr true => true
              | _ => false
              end
          | _ => false
          end
      | None => false
      end
  | _ => false
  end.

(** Every event of the list is one, each in the world the ones before it
    have made. *)
Fixpoint authFailures (w : World) (evs : list event) : bool :=
  match evs with
  | [] => true
  | e :: r => authFailureEvent w e && authFailures (step w e) r
  end.




(** Three calls of [apiRequest] on a new connection, the second without a
    callback; then each answered with 401. *)
Definition threeCalls : list event :=
  [Calls "/activities/" (Some "GET") Undefined Undefined Undefined true;
   Calls "/payers/" (Some "GET") Undefined Undefined Undefined false;
   Calls "/plans/" (Some "GET") Undefined Undefined Undefined true].

Definition unauthorized : Response := mkResponse 401 (Str "Unauthorized").

Definition threeFailures : list event :=
  [ApiCompletes 0 None (Some unauthorized) (Str "Unauthorized");
   ApiCompletes 0 None (Some unauthorized) (Str "Unauthorized");
   ApiCompletes 0 None (Some unauthorized) (Str "Unauthorized")].

Definition someOptions : Options :=
  mkOptions 7 "/claims/" (Some "POST") Undefined (Obj []) Undefined None None.

Definition badRequest : Response := mkResponse 400 (Str "invalid_client").

Definition tokenBody : value := Str (quoted "{'access_token':'s3cr3t'}").

Definition plainOptions : Options :=
  mkOptions 0 "/payers/" (Some "GET") Undefined Undefined Undefined None None.

(* DEFS *)
(* ===================================================================== *)
(** * The resource functions *)
(* ===================================================================== *)

(** An argument of a resource function: a function or a value.  The
    functions test [options instanceof Function]. *)
Inductive jsarg : Type :=
| Fun (f : fn)
| Val (v : value).

(** [!a] is false for a function. *)
Definition arg_truthy (a : jsarg) : bool :=
  match a with
  | Fun _ => true
  | Val v => truthy v
  end.

(** [a.name], for the names the resource functions read ([id],
    [transition], [npi]): a function has no such property. *)
Definition arg_prop (a : jsarg) (name : string) : exn + value :=
  match a with
  | Fun _ => inr Undefined
  | Val v => get_prop v name
  end.

(** [x || ''] *)
Definition or_empty (x : value) : value :=
  if truthy x then x else Str "".

(** The object literal a resource function hands to [apiRequest].  A key
    the literal does not have is [undefined]. *)
Record Descriptor : Type := mkDescriptor {
  d_path : string;
  d_method : string;
  d_qs : jsarg;
  d_json : jsarg;
  d_formData : jsarg
}.

(** What a resource function does: it throws, or calls [apiRequest] with a
    descriptor and a callback. *)
Definition request_call : Type := exn + (Descriptor * option fn).

Definition and_then {A B} (x : exn + A) (k : A -> exn + B) : exn + B :=
  match x with
  | inl e => inl e
  | inr a => k a
  end.

(** [PokitDok.prototype.activities] *)
Definition activities (options : jsarg) (callback : option fn)
  : request_call :=
  let callback :=
    match options with
    | Fun f => Some f
    | Val _ => callback
    end in
  let options := if arg_truthy options then options else Val (Obj []) in
  and_then (arg_prop options "id") (fun id =>
  and_then (ToString (or_empty id)) (fun token =>
  and_then (arg_prop options "transition") (fun transition =>
  inr (mkDescriptor
         ("/activities/" ++ token)
         (if truthy transition && truthy id then "PUT" else "GET")
         (if negb (truthy id) then options else Val Null)
         (Val (Obj [("transition", transition)]))
         (Val Undefined),
       callback)))).

(** [authorizations], [claims], [claimStatus], [eligibility], [enrollment]
    and [referrals] differ in the path only. *)
Definition post_json (path : string) (options : jsarg)
    (callback : option fn) : request_call :=
  inr (mkDescriptor path "POST" (Val Undefined) options (Val Undefined),
       callback).

Definition authorizations := post_json "/authorizations/".
Definition claims := post_json "/claims/".
Definition claimStatus := post_json "/claims/status".
Definition eligibility := post_json "/eligibility/".
Definition enrollment := post_json "/enrollment/".
Definition referrals := post_json "/referrals/".




(** [PokitDok.prototype.plans] *)
Definition plans (options : jsarg) (callback : option fn) : request_call :=
  let callback :=
    match options with
    | Fun f => Some f
    | Val _ => callback
    end in
  inr (mkDescriptor "/plans/" "GET" options (Val Undefined) (Val Undefined),
       callback).

(** [PokitDok.prototype.providers] *)
Definition providers (options : jsarg) (callback : option fn)
  : request_call :=
  and_then (arg_prop options "npi") (fun npi =>
  and_then (ToString (or_empty npi)) (fun token =>
  inr (mkDescriptor
         ("/providers/" ++ token)
         "GET"
         (if negb (truthy npi) then options else Val Null)
         (Val Undefined)
         (Val Undefined),
       callback))).

(** [PokitDok.prototype.tradingPartners] *)
Definition tradingPartners (options : jsarg) (callback : option fn)
  : request_call :=
  match options with
  | Fun f =>
      inr (mkDescriptor "/tradingpartners/" "GET" (Val Undefined)
             (Val Undefined) (Val Undefined),
           Some f)
  | Val _ =>
      and_then (arg_prop options "id") (fun id =>
      and_then (ToString (or_empty id)) (fun token =>
      inr (mkDescriptor ("/tradingpartners/" ++ token) "GET" (Val Undefined)
             (Val Undefined) (Val Undefined),
           callback)))
  end.


(** An authentication failure of the first pending request, followed by a
    successful completion of the token call: one round of retrying. *)
Definition retryRound (r : Response) (b : value) (tr : Response) (tb : value)
  : list event :=
  [ApiCompletes 0 None (Some r) b; TokenCompletes 0 None (Some tr) tb].

Fixpoint retryRounds (n : nat) (r : Response) (b : value) (tr : Response)
    (tb : value) : list event :=
  match n with
  | O => []
  | S n => (retryRound r b tr tb ++ retryRounds n r b tr tb)%list
  end.








(* ===================================================================== *)
(** * Running the monad *)
(* ===================================================================== *)

Lemma result_eta {A} (r : result A) :
  mkResult (state r) (effects r) (out r) = r.
Proof. destruct r; reflexivity. Qed.

Section MonadLaws.

Context {A B : Type}.

Lemma bind_ret (a : A) (k : A -> M B) (c : Session) :
  bind (ret a) k c = k a c.
Proof. unfold bind, ret; simpl. apply result_eta. Qed.

Lemma bind_throw (e : exn) (k : A -> M B) (c : Session) :
  bind (throw e) k c = throw e c.
Proof. reflexivity. Qed.

Lemma bind_lift_inr (a : A) (k : A -> M B) (c : Session) :
  bind (lift (inr a)) k c = k a c.
Proof. apply bind_ret. Qed.

Lemma bind_lift_inl (e : exn) (k : A -> M B) (c : Session) :
  bind (lift (inl e)) k c = throw e c.
Proof. reflexivity. Qed.

Lemma bind_deref_some (a : A) (k : A -> M B) (c : Session) :
  bind (deref (Some a)) k c = k a c.
Proof. apply bind_ret. Qed.

Lemma bind_deref_none (k : A -> M B) (c : Session) :
  bind (deref None) k c = throw TypeError c.
Proof. reflexivity. Qed.

End MonadLaws.

Lemma bind_get {B} (k : Session -> M B) (c : Session) :
  bind get k c = k c c.
Proof. unfold bind, get; simpl. apply result_eta. Qed.

Lemma bind_modify {B} (f : Session -> Session) (k : unit -> M B) (c : Session) :
  bind (modify f) k c = k tt (f c).
Proof. unfold bind, modify; simpl. apply result_eta. Qed.

Lemma bind_emit {B} (e : effect) (k : unit -> M B) (c : Session) :
  bind (emit e) k c
  = mkResult (state (k tt c)) (e :: effects (k tt c)) (out (k tt c)).
Proof. reflexivity. Qed.

Lemma bind_invoke {B} (cb : option fn) (a : value) (p : payload)
    (k : unit -> M B) (c : Session) :
  bind (invoke cb a p) k c
  = mkResult (state (k tt c))
      (match cb with Some f => [Call f a p] | None => [] end
       ++ effects (k tt c))
      (out (k tt c)).
Proof.
  destruct cb as [f|]; simpl.
  - apply bind_emit.
  - rewrite bind_ret. symmetry. apply result_eta.
Qed.

Create Rewrite HintDb pipeline.
#[local] Hint Rewrite @bind_ret @bind_throw @bind_lift_inr @bind_lift_inl
  @bind_deref_some @bind_deref_none @bind_get @bind_modify @bind_emit
  : pipeline.

Ltac run_pipeline := autorewrite with pipeline; cbn beta iota.

(* ===================================================================== *)
(** * What each function does *)
(* ===================================================================== *)

Lemma invoke_run (cb : option fn) (a : value) (p : payload) (c : Session) :
  invoke cb a p c = mkResult c (calls cb a p) (Return tt).
Proof. destruct cb; reflexivity. Qed.

Lemma apiRequest_run (o : Options) (cb : option fn) (c : Session) :
  apiRequest o cb c
  = match ToString (accessToken c) with
    | inr t => mkResult c [Request (dispatched c t o) cb] (Return tt)
    | inl e => mkResult c [] (Throw e)
    end.
Proof.
  unfold apiRequest. rewrite bind_get.
  destruct (ToString (accessToken c)) as [e|t]; run_pipeline; reflexivity.
Qed.

Lemma refreshAccessToken_run (o : Options) (cb : option fn) (c : Session) :
  refreshAccessToken o cb c
  = mkResult
      (set_refreshActive true (set_retryQueue (retryQueue c ++ [(o, cb)]) c))
      (if refreshActive c then [] else [TokenRequest (tokenOptions c) o cb])
      (Return tt).
Proof.
  unfold refreshAccessToken. rewrite bind_modify, bind_get.
  destruct c as [ci cs v ra q t]; destruct ra; simpl.
  - reflexivity.
  - rewrite bind_modify. reflexivity.
Qed.

Lemma replay_run (fuel : nat) :
  forall (l : list (Options * option fn)) (c : Session),
    rev (retryQueue c) = l ->
    List.length l <= fuel ->
    replay fuel c
    = match ToString (accessToken c) with
      | inr t =>
          mkResult (set_retryQueue [] c)
            (map (fun e => Request (dispatched c t (fst e)) (snd e)) l)
            (Return tt)
      | inl e =>
          match l with
          | [] => mkResult c [] (Return tt)
          | _ :: rest => mkResult (set_retryQueue (rev rest) c) [] (Throw e)
          end
      end.
Proof.
  induction fuel as [|fuel IH]; intros l c Hl Hlen.
  - destruct l; [|simpl in Hlen; lia].
    simpl. rewrite bind_get, Hl.
    assert (retryQueue c = []) as Hq
        by (destruct (retryQueue c) using rev_ind;
            [reflexivity | rewrite rev_app_distr in Hl; discriminate]).
    destruct c as [ci cs v ra q t]; simpl in *; subst q.
    destruct (ToString t); reflexivity.
  - simpl. rewrite bind_get, Hl.
    destruct l as [|[o cb] rest].
    + assert (retryQueue c = []) as Hq
          by (destruct (retryQueue c) using rev_ind;
              [reflexivity | rewrite rev_app_distr in Hl; discriminate]).
      destruct c as [ci cs v ra q t]; simpl in *; subst q.
      destruct (ToString t); reflexivity.
    + rewrite bind_modify. unfold bind at 1. rewrite apiRequest_run.
      cbn [fst snd].
      replace (accessToken (set_retryQueue (rev rest) c))
        with (accessToken c) by reflexivity.
      destruct (ToString (accessToken c)) as [e|t] eqn:Ht.
      * reflexivity.
      * cbn [out state effects].
        rewrite (IH rest (set_retryQueue (rev rest) c));
          [| simpl; apply rev_involutive | simpl in Hlen; lia].
        replace (accessToken (set_retryQueue (rev rest) c))
          with (accessToken c) by reflexivity.
        rewrite Ht. reflexivity.
Qed.

Lemma refreshHandler_run (cb : option fn) (err : option jserror)
    (res : option Response) (body : value) (c : Session) :
  refreshHandler cb err res body c
  = let c0 := set_refreshActive false c in
    match res with
    | None => mkResult c0 [] (Throw TypeError)
    | Some r =>
        if negb (statusCode r =? 200)%Z then
          mkResult (set_retryQueue [] c0)
            (calls cb (res_body r) (AResponse r)) (Return tt)
        else
          match JSON.parse body with
          | inl e => mkResult c0 [] (Throw e)
          | inr token =>
              match get_prop token "access_token" with
              | inl e => mkResult c0 [] (Throw e)
              | inr t =>
                  let c1 := set_accessToken t c0 in
                  match ToString t with
                  | inr text =>
                      mkResult (set_retryQueue [] c1)
                        (as_requests (replayed c1 text (retryQueue c)))
                        (Return tt)
                  | inl e =>
                      match rev (retryQueue c) with
                      | [] => mkResult c1 [] (Return tt)
                      | _ :: rest =>
                          mkResult (set_retryQueue (rev rest) c1) [] (Throw e)
                      end
                  end
              end
          end
    end.
Proof.
  unfold refreshHandler. rewrite bind_modify. cbv zeta.
  destruct res as [r|]; [rewrite bind_deref_some | reflexivity].
  destruct (negb (statusCode r =? 200)%Z).
  - rewrite bind_modify, invoke_run. reflexivity.
  - destruct (JSON.parse body) as [e|token]; [reflexivity|].
    rewrite bind_lift_inr.
    destruct (get_prop token "access_token") as [e|t]; [reflexivity|].
    rewrite bind_lift_inr, bind_modify, bind_get.
    rewrite (replay_run _ (rev (retryQueue c)));
      [| reflexivity | rewrite length_rev; reflexivity].
    cbn [accessToken set_accessToken].
    destruct (ToString t); [reflexivity|].
    unfold as_requests, replayed. rewrite map_map. reflexivity.
Qed.

Lemma apiHandler_run (o : Options) (cb : option fn) (err : option jserror)
    (res : option Response) (body : value) (c : Session) :
  apiHandler o cb err res body c
  = match preparse o res body with
    | inl e => mkResult c [] (Throw e)
    | inr (None, _) => mkResult c [] (Throw TypeError)
    | inr (Some r, b) =>
        match authFailure r b with
        | inl e => mkResult c [] (Throw e)
        | inr true => refreshAccessToken o cb c
        | inr false =>
            if negb (statusCode r =? 200)%Z
            then mkResult c (calls cb (res_body r) (AResponse r)) (Return tt)
            else mkResult c (calls cb Null (AData (parse_or_raw b))) (Return tt)
        end
    end.
Proof.
  unfold apiHandler.
  destruct (preparse o res body) as [e|[[r|] b]]; try reflexivity.
  rewrite bind_lift_inr. cbn [fst snd]. rewrite bind_deref_some.
  destruct (authFailure r b) as [e|[|]];
    [reflexivity | rewrite bind_lift_inr; reflexivity | rewrite bind_lift_inr].
  destruct (negb (statusCode r =? 200)%Z); apply invoke_run.
Qed.

Local Open Scope list_scope.

(* ===================================================================== *)
(** * Counting requests *)
(* ===================================================================== *)

Lemma occurrences_app (k : nat) (l l' : list nat) :
  occurrences k (l ++ l') = occurrences k l + occurrences k l'.
Proof. apply count_occ_app. Qed.

Lemma occurrences_rev (k : nat) (l : list nat) :
  occurrences k (rev l) = occurrences k l.
Proof. apply count_occ_rev. Qed.

Lemma ids_app (l l' : list (Options * option fn)) :
  ids (l ++ l') = ids l ++ ids l'.
Proof. apply map_app. Qed.

Lemma ids_rev (l : list (Options * option fn)) : ids (rev l) = rev (ids l).
Proof. apply map_rev. Qed.

Lemma ids_replayed (c : Session) (t : string) (q : list (Options * option fn)) :
  ids (replayed c t q) = rev (ids q).
Proof.
  unfold replayed, ids. rewrite map_map. simpl. apply map_rev.
Qed.

Lemma occurrences_In (e : Options * option fn) (l : list (Options * option fn)) :
  In e l -> 1 <= occurrences (oid (fst e)) (ids l).
Proof.
  intros H. unfold occurrences.
  apply (count_occ_In Nat.eq_dec). unfold ids. apply in_map_iff. eauto.
Qed.

Lemma remove_nth_split {A} (i : nat) (l : list A) (x : A) :
  nth_error l i = Some x ->
  l = firstn i l ++ x :: skipn (S i) l.
Proof.
  revert l; induction i as [|i IH]; intros [|y l] H; try discriminate.
  - injection H as ->. reflexivity.
  - simpl in H. simpl. f_equal. apply IH, H.
Qed.

Lemma occurrences_remove_nth (i : nat) (l : list (Options * option fn))
    (e : Options * option fn) (k : nat) :
  nth_error l i = Some e ->
  occurrences k (ids l)
  = occurrences k (ids (remove_nth i l)) + occurrences k [oid (fst e)].
Proof.
  intros H. rewrite (remove_nth_split i l e H) at 1.
  unfold remove_nth, occurrences, ids.
  rewrite !map_app, !count_occ_app. simpl.
  destruct (Nat.eq_dec (oid (fst e)) k); lia.
Qed.

Lemma In_remove_nth {A} (i : nat) (l : list A) (x : A) :
  In x (remove_nth i l) -> In x l.
Proof.
  unfold remove_nth. rewrite in_app_iff. intros [H|H].
  - rewrite <- (firstn_skipn i l). apply in_or_app; left; exact H.
  - rewrite <- (firstn_skipn (S i) l). apply in_or_app; right; exact H.
Qed.

Lemma length_remove_nth {A} (i : nat) (l : list A) (x : A) :
  nth_error l i = Some x ->
  S (List.length (remove_nth i l)) = List.length l.
Proof.
  intros H. rewrite (remove_nth_split i l x H) at 2.
  unfold remove_nth. rewrite !length_app. simpl. lia.
Qed.

(** The effects of the functions, sorted by kind. *)
Lemma requests_as_requests (l : list (Options * option fn)) :
  requests (as_requests l) = l.
Proof.
  induction l as [|[o cb] l IH]; simpl; [reflexivity | now rewrite IH].
Qed.

Lemma tokenRequests_as_requests (l : list (Options * option fn)) :
  tokenRequests (as_requests l) = [].
Proof. induction l as [|[o cb] l IH]; simpl; auto. Qed.

Lemma called_as_requests (l : list (Options * option fn)) :
  called (as_requests l) = [].
Proof. induction l as [|[o cb] l IH]; simpl; auto. Qed.

Lemma requests_calls (cb : option fn) (a : value) (p : payload) :
  requests (calls cb a p) = [].
Proof. destruct cb; reflexivity. Qed.

Lemma tokenRequests_calls (cb : option fn) (a : value) (p : payload) :
  tokenRequests (calls cb a p) = [].
Proof. destruct cb; reflexivity. Qed.

Lemma called_calls (cb : option fn) (a : value) (p : payload) :
  called (calls cb a p) = match cb with Some f => [f] | None => [] end.
Proof. destruct cb; reflexivity. Qed.

Lemma called_app (h h' : list effect) :
  called (h ++ h') = called h ++ called h'.
Proof.
  induction h as [|[| |] h IH]; simpl; auto. now rewrite IH.
Qed.

Lemma tokenRequests_app (h h' : list effect) :
  tokenRequests (h ++ h') = tokenRequests h ++ tokenRequests h'.
Proof.
  induction h as [|[| |] h IH]; simpl; auto. now rewrite IH.
Qed.

Lemma requests_app (h h' : list effect) :
  requests (h ++ h') = requests h ++ requests h'.
Proof.
  induction h as [|[| |] h IH]; simpl; auto. now rewrite IH.
Qed.

(* ===================================================================== *)
(** * The invariant of the event loop *)
(* ===================================================================== *)

Lemma Inv_boot (ci cs : string) (v : option string) : Inv (boot ci cs v).
Proof.
  constructor; unfold pending, queued, answered; simpl; try tauto;
    intros; auto.
Qed.

Lemma occurrences_one (k x : nat) :
  occurrences k [x] = if Nat.eq_dec x k then 1 else 0.
Proof. reflexivity. Qed.

Lemma occurrences_nil (k : nat) : occurrences k [] = 0.
Proof. reflexivity. Qed.

Lemma ids_cons (e : Options * option fn) (l : list (Options * option fn)) :
  ids (e :: l) = oid (fst e) :: ids l.
Proof. reflexivity. Qed.

Lemma ids_nil : ids [] = [].
Proof. reflexivity. Qed.

Ltac tidy :=
  unfold pending, queued, answered in *;
  repeat progress
    (cbn [session pendingApi pendingToken history nextOid state effects
          retryQueue refreshActive accessToken
          set_retryQueue set_refreshActive set_accessToken
          called requests tokenRequests
          fst snd oid dispatched set_headers set_url];
     rewrite ?called_app, ?requests_app, ?tokenRequests_app,
       ?called_calls, ?requests_calls, ?tokenRequests_calls,
       ?called_as_requests, ?requests_as_requests,
       ?tokenRequests_as_requests,
       ?app_nil_r, ?ids_app, ?ids_replayed, ?ids_cons, ?ids_nil,
       ?occurrences_app, ?occurrences_rev, ?occurrences_one,
       ?occurrences_nil).

Lemma Inv_calls (w : World) p m q j fd with_cb :
  Inv w -> Inv (step w (Calls p m q j fd with_cb)).
Proof.
  intros [H1 H2 H3 H4 H5]. unfold step, absorb.
  rewrite apiRequest_run.
  destruct (ToString (accessToken (session w))) as [e|t].
  - constructor; tidy; auto.
    intros k Hk. apply H4. lia.
  - constructor; tidy; auto.
    + intros k. tidy. specialize (H3 k).
      destruct (Nat.eq_dec (nextOid w) k) as [<-|Hne]; [|lia].
      specialize (H4 (nextOid w) (le_n _)). lia.
    + intros k Hk. tidy. specialize (H4 k).
      destruct (Nat.eq_dec (nextOid w) k) as [<-|Hne]; lia.
    + intros o f. rewrite <- app_assoc, !in_app_iff. simpl In.
      intros [H|[[H|[]]|H]].
      * apply H5, in_or_app; auto.
      * injection H as <- Hf. destruct with_cb; [|discriminate].
        injection Hf as <-. reflexivity.
      * apply H5, in_or_app; auto.
Qed.

Lemma Inv_apiCompletes (w : World) i err res body :
  Inv w -> Inv (step w (ApiCompletes i err res body)).
Proof.
  intros HI. unfold step.
  destruct (nth_error (pendingApi w) i) as [[o cb]|] eqn:Hnth; [|exact HI].
  destruct HI as [H1 H2 H3 H4 H5].
  assert (Hrm : forall k,
             occurrences k (ids (pendingApi w))
             = occurrences k (ids (remove_nth i (pendingApi w)))
               + (if Nat.eq_dec (oid o) k then 1 else 0))
    by (intros k; apply (occurrences_remove_nth i _ (o, cb) k Hnth)).
  assert (Hown : forall o' f,
             In (o', Some f) (remove_nth i (pendingApi w)
                              ++ retryQueue (session w)) -> f = oid o').
  { intros o' f Hin. apply H5. rewrite in_app_iff in *.
    destruct Hin as [Hin|Hin]; [left; eapply In_remove_nth; eauto | auto]. }
  assert (Hcb : forall f, cb = Some f -> f = oid o).
  { intros f ->. apply H5, in_or_app. left. eapply nth_error_In; eauto. }
  assert (Hquiet : forall n,
             n = nextOid w ->
             Inv (mkWorld (session w) (remove_nth i (pendingApi w))
                    (pendingToken w) (history w) n)).
  { intros n ->. constructor; tidy; auto.
    - intros k. tidy. specialize (H3 k); specialize (Hrm k). lia.
    - intros k Hk. tidy. specialize (H4 k Hk); specialize (Hrm k). lia. }
  assert (Hcall : forall a p,
             Inv (mkWorld (session w) (remove_nth i (pendingApi w))
                    (pendingToken w) (history w ++ calls cb a p) (nextOid w))).
  { intros a p. constructor; tidy; auto.
    - intros k. tidy. specialize (H3 k); specialize (Hrm k).
      destruct cb as [f|]; tidy; [rewrite (Hcb f eq_refl)|]; lia.
    - intros k Hk. tidy. specialize (H4 k Hk); specialize (Hrm k).
      destruct cb as [f|]; tidy; [rewrite (Hcb f eq_refl)|]; lia. }
  unfold absorb. rewrite apiHandler_run.
  destruct (preparse o res body) as [e|[[r|] b]];
    [tidy; apply Hquiet; reflexivity | | tidy; apply Hquiet; reflexivity].
  destruct (authFailure r b) as [e|[|]];
    [tidy; apply Hquiet; reflexivity | |].
  - rewrite refreshAccessToken_run.
    destruct (refreshActive (session w)) eqn:Hra.
    + constructor; tidy; auto.
      * intros e He. apply in_or_app. left. auto.
      * intros k. tidy. specialize (H3 k); specialize (Hrm k). lia.
      * intros k Hk. tidy. specialize (H4 k Hk); specialize (Hrm k). lia.
      * intros o' f. rewrite app_assoc, in_app_iff. simpl In.
        intros [Hin|[Hin|[]]]; [apply Hown, Hin|].
        injection Hin as <- ->. apply Hcb. reflexivity.
    + assert (pendingToken w = []) as Hpt
          by (destruct (pendingToken w); [reflexivity | discriminate]).
      constructor; tidy; auto.
      * rewrite Hpt. reflexivity.
      * rewrite Hpt. simpl. intros e [<-|[]]. apply in_or_app. right.
        left. reflexivity.
      * intros k. tidy. specialize (H3 k); specialize (Hrm k). lia.
      * intros k Hk. tidy. specialize (H4 k Hk); specialize (Hrm k). lia.
      * intros o' f. rewrite app_assoc, in_app_iff. simpl In.
        intros [Hin|[Hin|[]]]; [apply Hown, Hin|].
        injection Hin as <- ->. apply Hcb. reflexivity.
  - destruct (negb (statusCode r =? 200)%Z); tidy; apply Hcall.
Qed.

Lemma In_replayed (c : Session) (t : string) (q : list (Options * option fn))
    (o : Options) (cb : option fn) :
  In (o, cb) (replayed c t q) ->
  exists o0, In (o0, cb) q /\ oid o = oid o0.
Proof.
  unfold replayed. rewrite in_map_iff. intros [[o0 cb0] [Heq Hin]].
  injection Heq as <- <-. exists o0. split; [|reflexivity].
  apply in_rev, Hin.
Qed.

Lemma Inv_tokenCompletes (w : World) i err res body :
  Inv w -> Inv (step w (TokenCompletes i err res body)).
Proof.
  intros HI. unfold step.
  destruct (nth_error (pendingToken w) i) as [[o cb]|] eqn:Hnth; [|exact HI].
  destruct HI as [H1 H2 H3 H4 H5].
  assert (Hin : In (o, cb) (retryQueue (session w)))
    by (eapply H2, nth_error_In; eauto).
  assert (Hcb : forall f, cb = Some f -> f = oid o)
    by (intros f ->; apply H5, in_or_app; right; exact Hin).
  assert (Hpt : remove_nth i (pendingToken w) = []).
  { pose proof (length_remove_nth i _ _ Hnth) as Hlen.
    destruct (refreshActive (session w)); rewrite H1 in Hlen;
      [|discriminate].
    destruct (remove_nth i (pendingToken w)); [reflexivity | discriminate]. }
  assert (Hquiet : forall t,
             Inv (mkWorld
                    (set_accessToken t (set_refreshActive false (session w)))
                    (pendingApi w) [] (history w) (nextOid w))).
  { intros t. constructor; tidy; auto. simpl; tauto. }
  assert (Hsame : set_accessToken (accessToken (session w))
                    (set_refreshActive false (session w))
                  = set_refreshActive false (session w))
    by (destruct (session w); reflexivity).
  unfold absorb. rewrite Hpt, refreshHandler_run. cbv zeta.
  destruct res as [r|];
    [| tidy; rewrite <- Hsame; apply Hquiet].
  destruct (negb (statusCode r =? 200)%Z).
  { constructor; tidy; auto; try (simpl; tauto).
    - intros k. tidy. specialize (H3 k).
      pose proof (occurrences_In _ _ Hin) as Hq. simpl in Hq.
      destruct cb as [f|]; tidy; [rewrite (Hcb f eq_refl)|]; [|lia].
      destruct (Nat.eq_dec (oid o) k) as [<-|]; lia.
    - intros k Hk. tidy. specialize (H4 k Hk).
      pose proof (occurrences_In _ _ Hin) as Hq. simpl in Hq.
      destruct cb as [f|]; tidy; [rewrite (Hcb f eq_refl)|]; [|lia].
      destruct (Nat.eq_dec (oid o) k) as [<-|]; lia.
    - intros o' f Hi. apply H5. rewrite in_app_iff in *. tauto. }
  destruct (JSON.parse body) as [e|token];
    [tidy; rewrite <- Hsame; apply Hquiet|].
  destruct (get_prop token "access_token") as [e|t];
    [tidy; rewrite <- Hsame; apply Hquiet|].
  destruct (ToString t) as [e|text].
  - destruct (rev (retryQueue (session w))) as [|x rest] eqn:Hrev;
      [tidy; apply Hquiet|].
    assert (Hq : retryQueue (session w) = rev rest ++ [x])
      by (rewrite <- (rev_involutive (retryQueue (session w))), Hrev;
          reflexivity).
    constructor; tidy; auto; try (simpl; tauto).
    + intros k. specialize (H3 k).
      rewrite Hq, ids_app, occurrences_app in H3. lia.
    + intros k Hk. specialize (H4 k Hk).
      rewrite Hq, ids_app, occurrences_app in H4. lia.
    + intros o' f Hi. apply H5. rewrite Hq. rewrite !in_app_iff in *. tauto.
  - constructor; tidy; auto; try (simpl; tauto).
    + intros k. tidy. specialize (H3 k). lia.
    + intros k Hk. tidy. specialize (H4 k Hk). lia.
    + intros o' f. rewrite ?app_nil_r, in_app_iff. intros [Hi|Hi].
      * apply H5, in_or_app; auto.
      * apply In_replayed in Hi. destruct Hi as [o0 [Hi ->]].
        apply H5, in_or_app; auto.
Qed.

Lemma Inv_step (w : World) (e : event) : Inv w -> Inv (step w e).
Proof.
  destruct e;
    [apply Inv_calls | apply Inv_apiCompletes | apply Inv_tokenCompletes].
Qed.

Lemma Inv_run (evs : list event) : forall w, Inv w -> Inv (run w evs).
Proof.
  induction evs as [|e evs IH]; intros w H; [exact H|].
  apply IH, Inv_step, H.
Qed.

Lemma Inv_reachable (ci cs : string) (v : option string) (evs : list event) :
  Inv (run (boot ci cs v) evs).
Proof. apply Inv_run, Inv_boot. Qed.

(* ===================================================================== *)
(** * Facts about the runtime *)
(* ===================================================================== *)

Lemma indexOf_zero (c : ascii) (s : string) :
  indexOf c s = 0%Z <-> exists r, s = String c r.
Proof.
  split.
  - destruct s as [|d r]; simpl; [discriminate|].
    destruct (Ascii.eqb_spec d c) as [->|Hne]; [eauto|].
    destruct (indexOf c r <? 0)%Z eqn:Hlt; [discriminate|].
    apply Z.ltb_ge in Hlt. lia.
  - intros [r ->]. simpl. rewrite Ascii.eqb_refl. reflexivity.
Qed.

(** A text that parses as the members of an object gives an object. *)
Lemma parse_members_object (fuel : nat) :
  forall acc s v rest,
    JSON.parse_members fuel acc s = Some (v, rest) -> exists m, v = Obj m.
Proof.
  induction fuel as [|fuel IH]; intros acc s v rest; simpl; [discriminate|].
  destruct (JSON.eat dquote (JSON.skip_ws s)) as [r|]; [|discriminate].
  destruct (JSON.chars r) as [[k r1]|]; [|discriminate].
  destruct (JSON.eat ":" (JSON.skip_ws r1)) as [r2|]; [|discriminate].
  destruct (JSON.parse_value fuel r2) as [[x r3]|]; [|discriminate].
  destruct (JSON.eat "," (JSON.skip_ws r3)) as [r4|]; [apply IH|].
  destruct (JSON.eat "}" (JSON.skip_ws r3)) as [r4|]; [|discriminate].
  intros H; injection H as <- _; eauto.
Qed.

Lemma parse_brace_object (r : string) (v : value) :
  JSON.parse (Str (String "{" r)) = inr v -> exists m, v = Obj m.
Proof.
  unfold JSON.parse, ToString, JSON.parse_text.
  replace (2 * String.length (String "{" r) + 2)
    with (S (2 * String.length (String "{" r) + 1)) by lia.
  generalize (2 * String.length (String "{" r) + 1). intros fuel.
  cbn [JSON.parse_value].
  change (JSON.skip_ws (String "{" r)) with (String "{" r).
  cbv iota beta. rewrite Ascii.eqb_refl.
  assert (Hobj : forall x rest,
             match JSON.eat "}" (JSON.skip_ws r) with
             | Some r' => Some (Obj [], r')
             | None => JSON.parse_members fuel [] (JSON.skip_ws r)
             end = Some (x, rest) -> exists m, x = Obj m).
  { intros x rest. destruct (JSON.eat "}" (JSON.skip_ws r)).
    - intros H; injection H as <- _; eauto.
    - apply parse_members_object. }
  destruct (match JSON.eat "}" (JSON.skip_ws r) with
            | Some r' => Some (Obj [], r')
            | None => JSON.parse_members fuel [] (JSON.skip_ws r)
            end) as [[x rest]|]; [|discriminate].
  destruct (Hobj x rest eq_refl) as [m ->].
  destruct (JSON.skip_ws rest); [|discriminate].
  intros H; injection H as <-; eauto.
Qed.

(** [JSON.parse] throws on an object: it prints as [[object Object]], or
    cannot be printed at all. *)
Lemma parse_object_throws (m : list (string * value)) :
  exists e, JSON.parse (Obj m) = inl e.
Proof.
  unfold JSON.parse. cbn [ToString].
  destruct (lookup "toString" m); [eauto|].
  exists SyntaxError. vm_compute. reflexivity.
Qed.

Lemma parse_or_raw_object (m : list (string * value)) :
  parse_or_raw (Obj m) = Obj m.
Proof.
  unfold parse_or_raw. destruct (parse_object_throws m) as [e ->].
  reflexivity.
Qed.

(* ===================================================================== *)
(** * The completion handler of [apiRequest], case by case *)
(* ===================================================================== *)

(** With [options.json] set the first statement of the handler does
    nothing. *)
Lemma preparse_json (o : Options) (res : option Response) (body : value) :
  truthy (json o) = true -> preparse o res body = inr (res, body).
Proof. unfold preparse. intros ->. reflexivity. Qed.

(** Nor does it when [body] is not a string that starts with a brace. *)
Lemma preparse_other (o : Options) (res : option Response) (body : value) :
  (forall s, body <> Str (String "{" s)) ->
  preparse o res body = inr (res, body).
Proof.
  unfold preparse. intros H.
  destruct body as [| | | |s| |]; try (rewrite andb_false_r; reflexivity).
  destruct (indexOf "{" s =? 0)%Z eqn:Hi;
    [|rewrite andb_false_r; reflexivity].
  apply Z.eqb_eq, indexOf_zero in Hi. destruct Hi as [r ->].
  exfalso. apply (H r). reflexivity.
Qed.

(** A body that starts with a brace and is not JSON: the exception of
    [JSON.parse] leaves the handler, nothing is called. *)
Lemma apiHandler_malformed (o : Options) (cb : option fn)
    (err : option jserror) (res : option Response) (s : string) (e : exn)
    (c : Session) :
  truthy (json o) = false ->
  JSON.parse (Str (String "{" s)) = inl e ->
  apiHandler o cb err res (Str (String "{" s)) c = mkResult c [] (Throw e).
Proof.
  intros Hj Hp. rewrite apiHandler_run. unfold preparse.
  rewrite Hj, Hp. reflexivity.
Qed.

(** A body that is a JSON object in text, with status 200: the callback
    gets the object. *)
Lemma apiHandler_ok_object (o : Options) (cb : option fn)
    (err : option jserror) (r : Response) (s : string) (v : value)
    (c : Session) :
  truthy (json o) = false ->
  statusCode r = 200%Z ->
  res_body r = Str (String "{" s) ->
  JSON.parse (Str (String "{" s)) = inr v ->
  apiHandler o cb err (Some r) (Str (String "{" s)) c
  = mkResult c (calls cb Null (AData v)) (Return tt).
Proof.
  intros Hj Hs Hb Hp. rewrite apiHandler_run. unfold preparse.
  rewrite Hj, Hp, Hb, Hp. cbn -[JSON.parse].
  unfold authFailure. cbn [statusCode set_body]. rewrite Hs.
  destruct (parse_brace_object s v Hp) as [m ->].
  rewrite parse_or_raw_object. reflexivity.
Qed.

(** Any other body, with status 200: the callback gets what [JSON.parse]
    makes of it, or the body itself. *)
Lemma apiHandler_ok_other (o : Options) (cb : option fn)
    (err : option jserror) (r : Response) (body : value) (c : Session) :
  preparse o (Some r) body = inr (Some r, body) ->
  statusCode r = 200%Z ->
  apiHandler o cb err (Some r) body c
  = mkResult c (calls cb Null (AData (parse_or_raw body))) (Return tt).
Proof.
  intros Hp Hs. rewrite apiHandler_run, Hp. unfold authFailure.
  rewrite Hs. reflexivity.
Qed.

(** A status that is neither 200 nor an authentication failure, when the
    first statement did not throw: the callback gets the body and the
    response, the connection is as before. *)
Lemma apiHandler_passthrough (o : Options) (cb : option fn)
    (err : option jserror) (res : option Response) (body : value)
    (r : Response) (b : value) (c : Session) :
  preparse o res body = inr (Some r, b) ->
  authFailure r b = inr false ->
  statusCode r <> 200%Z ->
  apiHandler o cb err res body c
  = mkResult c (calls cb (res_body r) (AResponse r)) (Return tt).
Proof.
  intros Hp Ha Hs. rewrite apiHandler_run, Hp, Ha.
  apply Z.eqb_neq in Hs. rewrite Hs. reflexivity.
Qed.

(** An authentication failure: the handler is [refreshAccessToken]. *)
Lemma apiHandler_auth (o : Options) (cb : option fn)
    (err : option jserror) (res : option Response) (body : value)
    (r : Response) (b : value) (c : Session) :
  preparse o res body = inr (Some r, b) ->
  authFailure r b = inr true ->
  apiHandler o cb err res body c = refreshAccessToken o cb c.
Proof. intros Hp Ha. rewrite apiHandler_run, Hp, Ha. reflexivity. Qed.

(** No response: the handler throws before it calls anything. *)
Lemma apiHandler_no_response (o : Options) (cb : option fn)
    (err : option jserror) (body : value) (c : Session) :
  exists e, apiHandler o cb err None body c = mkResult c [] (Throw e).
Proof.
  rewrite apiHandler_run. unfold preparse.
  destruct (negb (truthy (json o)) && _); [|eauto].
  destruct (JSON.parse body); eauto.
Qed.

(** The loop of the token handler ends: the fuel it is given is never
    used up, and neither handler runs out of it. *)
Lemma refreshHandler_total (cb : option fn) (err : option jserror)
    (res : option Response) (body : value) (c : Session) :
  out (refreshHandler cb err res body c) <> OutOfFuel.
Proof.
  rewrite refreshHandler_run. cbv zeta.
  destruct res as [r|]; [|discriminate].
  destruct (negb (statusCode r =? 200)%Z); [discriminate|].
  destruct (JSON.parse body) as [e|token]; [discriminate|].
  destruct (get_prop token "access_token") as [e|t]; [discriminate|].
  destruct (ToString t); [|discriminate].
  destruct (rev (retryQueue c)); discriminate.
Qed.

Lemma apiHandler_total (o : Options) (cb : option fn) (err : option jserror)
    (res : option Response) (body : value) (c : Session) :
  out (apiHandler o cb err res body c) <> OutOfFuel.
Proof.
  rewrite apiHandler_run.
  destruct (preparse o res body) as [e|[[r|] b]]; try discriminate.
  destruct (authFailure r b) as [e|[|]]; try discriminate.
  - rewrite refreshAccessToken_run. discriminate.
  - destruct (negb (statusCode r =? 200)%Z); discriminate.
Qed.

(* ===================================================================== *)
(** * A request that has left the pipeline *)
(* ===================================================================== *)

Lemma gone_step (w : World) (e : event) (k : nat) :
  Inv w -> gone k w ->
  gone k (step w e) /\ answered k (step w e) = answered k w.
Proof.
  intros HI [Hk H0]. destruct e as [p m q j fd with_cb|i err res body|i err res body].
  - unfold step, absorb, gone. rewrite apiRequest_run.
    destruct (ToString (accessToken (session w))) as [e|t]; tidy.
    + repeat split; auto.
    + destruct (Nat.eq_dec (nextOid w) k); [lia|]. repeat split; lia.
  - unfold step.
    destruct (nth_error (pendingApi w) i) as [[o cb]|] eqn:Hnth;
      [|split; [split|]; auto].
    destruct HI as [H1 H2 H3 H4 H5].
    pose proof (occurrences_remove_nth i _ (o, cb) k Hnth) as Hrm.
    assert (Hcb : forall f, cb = Some f -> f = oid o).
    { intros f ->. apply H5, in_or_app. left. eapply nth_error_In; eauto. }
    unfold absorb, gone. rewrite apiHandler_run.
    tidy. cbn [fst] in Hrm. rewrite occurrences_one in Hrm.
    destruct (Nat.eq_dec (oid o) k) as [Heq|Hne]; [lia|].
    destruct (preparse o res body) as [e|[[r|] b]];
      [tidy; repeat split; lia | | tidy; repeat split; lia].
    destruct (authFailure r b) as [e|[|]]; [tidy; repeat split; lia | |].
    + rewrite refreshAccessToken_run. tidy.
      destruct (Nat.eq_dec (oid o) k); [lia|].
      destruct (refreshActive (session w)); tidy; repeat split; lia.
    + destruct (negb (statusCode r =? 200)%Z); tidy;
        (destruct cb as [f|]; tidy;
         [rewrite (Hcb f eq_refl); destruct (Nat.eq_dec (oid o) k); [lia|]|];
         repeat split; lia).
  - unfold step.
    destruct (nth_error (pendingToken w) i) as [[o cb]|] eqn:Hnth;
      [|split; [split|]; auto].
    destruct HI as [H1 H2 H3 H4 H5].
    assert (Hin : In (o, cb) (retryQueue (session w)))
      by (eapply H2, nth_error_In; eauto).
    assert (Hcb : forall f, cb = Some f -> f = oid o)
      by (intros f ->; apply H5, in_or_app; right; exact Hin).
    pose proof (occurrences_In _ _ Hin) as Hq. cbn [fst] in Hq.
    unfold absorb, gone. rewrite refreshHandler_run. cbv zeta.
    tidy.
    destruct (Nat.eq_dec (oid o) k) as [Heq|Hne]; [subst k; lia|].
    destruct res as [r|]; [|tidy; repeat split; lia].
    destruct (negb (statusCode r =? 200)%Z).
    { tidy. destruct cb as [f|]; tidy;
        [rewrite (Hcb f eq_refl); destruct (Nat.eq_dec (oid o) k); [lia|]|];
        repeat split; lia. }
    destruct (JSON.parse body) as [e|token]; [tidy; repeat split; lia|].
    destruct (get_prop token "access_token") as [e|t];
      [tidy; repeat split; lia|].
    destruct (ToString t) as [e|text]; [|tidy; repeat split; lia].
    destruct (rev (retryQueue (session w))) as [|x rest] eqn:Hrev;
      [tidy; repeat split; lia|].
    assert (Hq' : retryQueue (session w) = rev rest ++ [x])
      by (rewrite <- (rev_involutive (retryQueue (session w))), Hrev;
          reflexivity).
    rewrite Hq', ids_app, occurrences_app in H0.
    tidy. repeat split; lia.
Qed.

Lemma gone_run (evs : list event) :
  forall (w : World) (k : nat),
    Inv w -> gone k w ->
    gone k (run w evs) /\ answered k (run w evs) = answered k w.
Proof.
  induction evs as [|e evs IH]; intros w k HI Hg; [auto|].
  destruct (gone_step w e k HI Hg) as [Hg' Ha].
  destruct (IH (step w e) k (Inv_step w e HI) Hg') as [Hg'' Ha'].
  simpl. split; [exact Hg''|]. rewrite Ha'. exact Ha.
Qed.

(* ===================================================================== *)
(** * Authentication failures while a refresh is awaited *)
(* ===================================================================== *)

Lemma authFailureEvent_step (w : World) (e : event) :
  authFailureEvent w e = true ->
  exists i o cb,
    nth_error (pendingApi w) i = Some (o, cb)
    /\ step w e
       = mkWorld
           (set_refreshActive true
              (set_retryQueue (retryQueue (session w) ++ [(o, cb)])
                 (session w)))
           (remove_nth i (pendingApi w))
           (pendingToken w
            ++ if refreshActive (session w) then [] else [(o, cb)])
           (history w
            ++ if refreshActive (session w) then []
               else [TokenRequest (tokenOptions (session w)) o cb])
           (nextOid w).
Proof.
  destruct e as [| i err res body |]; try discriminate. simpl.
  destruct (nth_error (pendingApi w) i) as [[o cb]|] eqn:Hnth;
    [|discriminate].
  destruct (preparse o res body) as [|[[r|] b]] eqn:Hp; try discriminate.
  destruct (authFailure r b) as [|[|]] eqn:Ha; try discriminate.
  intros _. exists i, o, cb. split; [exact Hnth|].
  rewrite (apiHandler_auth _ _ _ _ _ _ _ _ Hp Ha), refreshAccessToken_run.
  unfold absorb. cbn [state effects].
  destruct (refreshActive (session w)); cbn [requests tokenRequests];
    rewrite ?app_nil_r; reflexivity.
Qed.

Lemma authFailures_run (evs : list event) :
  forall w,
    authFailures w evs = true ->
    List.length (tokenRequests (history (run w evs)))
    = List.length (tokenRequests (history w))
      + (if refreshActive (session w) then 0
         else match evs with [] => 0 | _ => 1 end)
    /\ List.length (retryQueue (session (run w evs)))
       = List.length (retryQueue (session w)) + List.length evs
    /\ (evs <> [] -> refreshActive (session (run w evs)) = true).
Proof.
  induction evs as [|e evs IH]; intros w H.
  - simpl. destruct (refreshActive (session w)); repeat split; try lia.
    congruence.
  - simpl in H. apply andb_prop in H. destruct H as [He Hr].
    destruct (authFailureEvent_step w e He) as (i & o & cb & Hnth & Hst).
    destruct (IH _ Hr) as (IH1 & IH2 & IH3).
    cbn [run fold_left]. fold (run (step w e) evs).
    rewrite IH1, IH2. rewrite Hst.
    cbn [session history refreshActive retryQueue set_refreshActive
         set_retryQueue].
    rewrite tokenRequests_app, !length_app.
    split; [|split].
    + destruct (refreshActive (session w)); simpl; lia.
    + simpl. lia.
    + intros _. rewrite Hst in IH3. destruct evs as [|e' evs'].
      * reflexivity.
      * apply IH3. discriminate.
Qed.

(* ===================================================================== *)
(** * Before the first successful refresh *)
(* ===================================================================== *)



(* ===================================================================== *)
(** * The fuel of the parser is enough *)
(* ===================================================================== *)

Module JSONFacts.

Import JSON.

Lemma skip_ws_length (s : string) :
  String.length (skip_ws s) <= String.length s.
Proof.
  induction s as [|c s IH]; simpl; [lia|].
  destruct (is_ws c); simpl; lia.
Qed.

Lemma eat_length (c : ascii) (s r : string) :
  eat c s = Some r -> String.length s = S (String.length r).
Proof.
  destruct s as [|d s]; simpl; [discriminate|].
  destruct (Ascii.eqb d c); [|discriminate].
  intros H; injection H as ->. reflexivity.
Qed.

Lemma span_digits_length (s : string) :
  String.length (snd (span_digits s)) <= String.length s.
Proof.
  induction s as [|c s IH]; simpl; [lia|].
  destruct (is_digit c); simpl; [|lia].
  destruct (span_digits s); simpl in *; lia.
Qed.

Lemma chars_length (n : nat) :
  forall s t r,
    String.length s <= n ->
    chars s = Some (t, r) -> String.length r < String.length s.
Proof.
  induction n as [|n IH]; intros s t r Hn; destruct s as [|c s];
    try discriminate; simpl in Hn; [lia|].
  simpl.
  destruct (Ascii.eqb c dquote).
  { intros H; injection H as _ ->. lia. }
  destruct (Ascii.eqb c "\").
  - destruct s as [|e s]; [discriminate|].
    assert (Hesc :
              match escape e with
              | Some x =>
                  match chars s with
                  | Some (t0, rest) => Some (String x t0, rest)
                  | None => None
                  end
              | None => None
              end = Some (t, r) -> String.length r < S (S (String.length s))).
    { destruct (escape e); [|discriminate].
      destruct (chars s) as [[t0 rest]|] eqn:Hc; [|discriminate].
      intros H; injection H as _ ->.
      apply IH in Hc; simpl in *; lia. }
    destruct (Ascii.eqb_spec e "u") as [->|Hne].
    + destruct s as [|h1 [|h2 [|h3 [|h4 s']]]]; try exact Hesc.
      destruct (hex_digit h1), (hex_digit h2), (hex_digit h3), (hex_digit h4);
        try discriminate.
      destruct (chars s') as [[t0 rest]|] eqn:Hc; [|discriminate].
      intros H; injection H as _ ->.
      apply IH in Hc; simpl in *; lia.
    + destruct e as [[] [] [] [] [] [] [] []]; try exact Hesc.
      congruence.
  - destruct (nat_of_ascii c <? 32)%nat; [discriminate|].
    destruct (chars s) as [[t0 rest]|] eqn:Hc; [|discriminate].
    intros H; injection H as _ ->.
    apply IH in Hc; simpl in *; lia.
Qed.

Lemma integer_length (s i r : string) :
  integer s = Some (i, r) -> String.length r < String.length s.
Proof.
  destruct s as [|c s]; simpl; [discriminate|].
  destruct (Ascii.eqb c "0").
  { intros H; injection H as _ ->. lia. }
  destruct (is_nonzero_digit c); [|discriminate].
  pose proof (span_digits_length s) as Hs.
  destruct (span_digits s) as [ds rest]. simpl in Hs.
  intros H; injection H as _ ->. lia.
Qed.

Lemma fraction_length (s f r : string) :
  fraction s = Some (f, r) -> String.length r <= String.length s.
Proof.
  unfold fraction. destruct (eat "." s) as [r0|] eqn:He.
  - apply eat_length in He. pose proof (span_digits_length r0) as Hs.
    destruct (span_digits r0) as [ds rest]. simpl in Hs.
    destruct (String.eqb ds ""); [discriminate|].
    intros H; injection H as _ ->. lia.
  - intros H; injection H as _ ->. lia.
Qed.

Lemma exponent_length (s e r : string) :
  exponent s = Some (e, r) -> String.length r <= String.length s.
Proof.
  destruct s as [|c s]; simpl.
  { intros H; injection H as _ <-. simpl; lia. }
  destruct (Ascii.eqb c "e" || Ascii.eqb c "E").
  - assert (Hsg : String.length
                    (snd match eat "+" s with
                         | Some r' => ("+", r')
                         | None =>
                             match eat "-" s with
                             | Some r' => ("-", r')
                             | None => ("", s)
                             end
                         end) <= String.length s).
    { destruct (eat "+" s) as [r'|] eqn:H1;
        [apply eat_length in H1; simpl; lia|].
      destruct (eat "-" s) as [r'|] eqn:H2;
        [apply eat_length in H2; simpl; lia|].
      simpl; lia. }
    destruct (match eat "+" s with
              | Some r' => ("+", r')
              | None => _
              end) as [sg r1].
    simpl in Hsg. pose proof (span_digits_length r1) as Hs.
    destruct (span_digits r1) as [ds rest]. simpl in Hs.
    destruct (String.eqb ds ""); [discriminate|].
    intros H; injection H as _ ->. lia.
  - intros H; injection H as _ <-. simpl; lia.
Qed.

Lemma number_length (s n r : string) :
  number s = Some (n, r) -> String.length r < String.length s.
Proof.
  unfold number.
  assert (Hs1 : String.length
                  (snd match eat "-" s with
                       | Some r => ("-", r)
                       | None => ("", s)
                       end) <= String.length s).
  { destruct (eat "-" s) as [r'|] eqn:H1;
      [apply eat_length in H1; simpl; lia | simpl; lia]. }
  destruct (match eat "-" s with
            | Some r => ("-", r)
            | None => ("", s)
            end) as [sign s1].
  simpl in Hs1.
  destruct (integer s1) as [[i s2]|] eqn:Hi; [|discriminate].
  destruct (fraction s2) as [[f s3]|] eqn:Hf; [|discriminate].
  destruct (exponent s3) as [[e s4]|] eqn:He; [|discriminate].
  apply integer_length in Hi. apply fraction_length in Hf.
  apply exponent_length in He.
  intros H; injection H as _ ->. lia.
Qed.

Lemma after_length (w : string) :
  forall s r,
    after w s = Some r -> String.length s = String.length w + String.length r.
Proof.
  induction w as [|a w IH]; intros s r; simpl.
  - intros H; injection H as ->. reflexivity.
  - destruct s as [|b s]; [discriminate|].
    destruct (Ascii.eqb a b); [|discriminate].
    intros H. apply IH in H. simpl. lia.
Qed.

Lemma literal_length (w : string) (v x : value) (s r : string) :
  literal w v s = Some (x, r) ->
  String.length s = String.length w + String.length r.
Proof.
  unfold literal. destruct (after w s) as [rest|] eqn:Ha; [|discriminate].
  intros H; injection H as _ ->. apply after_length, Ha.
Qed.

(** One turn of each of the three functions. *)
Lemma parse_value_S (fuel : nat) (s : string) :
  parse_value (S fuel) s
  = match skip_ws s with
    | EmptyString => None
    | String c r as s1 =>
        if Ascii.eqb c "{" then
          match eat "}" (skip_ws r) with
          | Some r' => Some (Obj [], r')
          | None => parse_members fuel [] (skip_ws r)
          end
        else if Ascii.eqb c "[" then
          match eat "]" (skip_ws r) with
          | Some r' => Some (Arr [], r')
          | None => parse_elements fuel [] (skip_ws r)
          end
        else if Ascii.eqb c dquote then
          match chars r with
          | Some (t, rest) => Some (Str t, rest)
          | None => None
          end
        else if Ascii.eqb c "t" then literal "true" (Bool true) s1
        else if Ascii.eqb c "f" then literal "false" (Bool false) s1
        else if Ascii.eqb c "n" then literal "null" Null s1
        else
          match number s1 with
          | Some (n, rest) => Some (Num n, rest)
          | None => None
          end
    end.
Proof. reflexivity. Qed.

Lemma parse_elements_S (fuel : nat) (acc : list value) (s : string) :
  parse_elements (S fuel) acc s
  = match parse_value fuel s with
    | None => None
    | Some (v, r) =>
        match eat "," (skip_ws r) with
        | Some r' => parse_elements fuel (v :: acc) r'
        | None =>
            match eat "]" (skip_ws r) with
            | Some r' => Some (Arr (rev (v :: acc)), r')
            | None => None
            end
        end
    end.
Proof. reflexivity. Qed.

Lemma parse_members_S (fuel : nat) (acc : list (string * value)) (s : string) :
  parse_members (S fuel) acc s
  = match eat dquote (skip_ws s) with
    | None => None
    | Some r =>
        match chars r with
        | None => None
        | Some (k, r1) =>
            match eat ":" (skip_ws r1) with
            | None => None
            | Some r2 =>
                match parse_value fuel r2 with
                | None => None
                | Some (v, r3) =>
                    match eat "," (skip_ws r3) with
                    | Some r4 => parse_members fuel (define k v acc) r4
                    | None =>
                        match eat "}" (skip_ws r3) with
                        | Some r4 => Some (Obj (define k v acc), r4)
                        | None => None
                        end
                    end
                end
            end
        end
    end.
Proof. reflexivity. Qed.

(** What is left after a value is shorter than the text. *)
Lemma parse_shrinks (fuel : nat) :
  (forall s v r,
      parse_value fuel s = Some (v, r) -> String.length r < String.length s)
  /\ (forall acc s v r,
        parse_elements fuel acc s = Some (v, r) ->
        String.length r < String.length s)
  /\ (forall acc s v r,
        parse_members fuel acc s = Some (v, r) ->
        String.length r < String.length s).
Proof.
  induction fuel as [|fuel (IHv & IHe & IHm)];
    [repeat split; intros; discriminate|].
  split; [|split].
  - intros s v r. rewrite parse_value_S.
    pose proof (skip_ws_length s) as Hs.
    destruct (skip_ws s) as [|c r0]; [discriminate|].
    pose proof (skip_ws_length r0) as Hr0. simpl in Hs.
    destruct (Ascii.eqb c "{").
    { destruct (eat "}" (skip_ws r0)) as [r'|] eqn:He.
      - apply eat_length in He.
        intros H; injection H as _ ->. lia.
      - intros H. apply IHm in H. lia. }
    destruct (Ascii.eqb c "[").
    { destruct (eat "]" (skip_ws r0)) as [r'|] eqn:He.
      - apply eat_length in He.
        intros H; injection H as _ ->. lia.
      - intros H. apply IHe in H. lia. }
    destruct (Ascii.eqb c dquote).
    { destruct (chars r0) as [[t rest]|] eqn:Hc; [|discriminate].
      apply (chars_length _ _ _ _ (le_n _)) in Hc.
      intros H; injection H as _ ->. lia. }
    destruct (Ascii.eqb c "t").
    { intros H. apply literal_length in H. simpl in H. lia. }
    destruct (Ascii.eqb c "f").
    { intros H. apply literal_length in H. simpl in H. lia. }
    destruct (Ascii.eqb c "n").
    { intros H. apply literal_length in H. simpl in H. lia. }
    cbv zeta.
    destruct (number (String c r0)) as [[n rest]|] eqn:Hn; [|discriminate].
    apply number_length in Hn. simpl in Hn.
    intros H; injection H as _ ->. lia.
  - intros acc s v r. rewrite parse_elements_S.
    destruct (parse_value fuel s) as [[x r0]|] eqn:Hv; [|discriminate].
    apply IHv in Hv. pose proof (skip_ws_length r0) as Hr0.
    destruct (eat "," (skip_ws r0)) as [r'|] eqn:He.
    + apply eat_length in He. intros H. apply IHe in H. lia.
    + destruct (eat "]" (skip_ws r0)) as [r'|] eqn:He2; [|discriminate].
      apply eat_length in He2.
      intros H; injection H as _ ->. lia.
  - intros acc s v r. rewrite parse_members_S.
    pose proof (skip_ws_length s) as Hs.
    destruct (eat dquote (skip_ws s)) as [r0|] eqn:He0; [|discriminate].
    apply eat_length in He0.
    destruct (chars r0) as [[k r1]|] eqn:Hc; [|discriminate].
    apply (chars_length _ _ _ _ (le_n _)) in Hc.
    pose proof (skip_ws_length r1) as Hr1.
    destruct (eat ":" (skip_ws r1)) as [r2|] eqn:He1; [|discriminate].
    apply eat_length in He1.
    destruct (parse_value fuel r2) as [[x r3]|] eqn:Hv; [|discriminate].
    apply IHv in Hv. pose proof (skip_ws_length r3) as Hr3.
    destruct (eat "," (skip_ws r3)) as [r4|] eqn:He.
    + apply eat_length in He. intros H. apply IHm in H. lia.
    + destruct (eat "}" (skip_ws r3)) as [r4|] eqn:He2; [|discriminate].
      apply eat_length in He2.
      intros H; injection H as _ ->. lia.
Qed.

(** With fuel for the length of the text, more fuel changes nothing. *)
Lemma parse_stable (fuel : nat) :
  (forall s,
      2 * String.length s + 2 <= fuel ->
      parse_value (S fuel) s = parse_value fuel s)
  /\ (forall acc s,
        2 * String.length s + 3 <= fuel ->
        parse_elements (S fuel) acc s = parse_elements fuel acc s)
  /\ (forall acc s,
        2 * String.length s + 3 <= fuel ->
        parse_members (S fuel) acc s = parse_members fuel acc s).
Proof.
  induction fuel as [|fuel (IHv & IHe & IHm)];
    [repeat split; intros; lia|].
  split; [|split].
  - intros s Hf. rewrite (parse_value_S (S fuel)), (parse_value_S fuel).
    pose proof (skip_ws_length s) as Hs.
    destruct (skip_ws s) as [|c r0]; [reflexivity|].
    pose proof (skip_ws_length r0) as Hr0. simpl in Hs.
    rewrite IHm, IHe by lia. reflexivity.
  - intros acc s Hf.
    rewrite (parse_elements_S (S fuel)), (parse_elements_S fuel).
    rewrite IHv by lia.
    destruct (parse_value fuel s) as [[x r0]|] eqn:Hv; [|reflexivity].
    apply (proj1 (parse_shrinks fuel)) in Hv.
    pose proof (skip_ws_length r0) as Hr0.
    destruct (eat "," (skip_ws r0)) as [r'|] eqn:He; [|reflexivity].
    apply eat_length in He. apply IHe. lia.
  - intros acc s Hf.
    rewrite (parse_members_S (S fuel)), (parse_members_S fuel).
    pose proof (skip_ws_length s) as Hs.
    destruct (eat dquote (skip_ws s)) as [r0|] eqn:He0; [|reflexivity].
    apply eat_length in He0.
    destruct (chars r0) as [[k r1]|] eqn:Hc; [|reflexivity].
    apply (chars_length _ _ _ _ (le_n _)) in Hc.
    pose proof (skip_ws_length r1) as Hr1.
    destruct (eat ":" (skip_ws r1)) as [r2|] eqn:He1; [|reflexivity].
    apply eat_length in He1.
    rewrite IHv by lia.
    destruct (parse_value fuel r2) as [[x r3]|] eqn:Hv; [|reflexivity].
    apply (proj1 (parse_shrinks fuel)) in Hv.
    pose proof (skip_ws_length r3) as Hr3.
    destruct (eat "," (skip_ws r3)) as [r4|] eqn:He; [|reflexivity].
    apply eat_length in He. apply IHm. lia.
Qed.

(** [JSON.parse] does not run out of fuel: any larger amount gives what
    [parse_text] computes. *)
Lemma parse_value_enough (extra : nat) (s : string) :
  parse_value (2 * String.length s + 2 + extra) s
  = parse_value (2 * String.length s + 2) s.
Proof.
  induction extra as [|extra IH]; [rewrite Nat.add_0_r; reflexivity|].
  rewrite Nat.add_succ_r, <- IH. apply parse_stable. lia.
Qed.

End JSONFacts.


(* ===================================================================== *)
(** * The properties of the pipeline *)
(* ===================================================================== *)

(** C1.  Single-flight refresh.  On a connection made by the constructor and
    driven by any events, at most one token call is pending at any time:
    one while [refreshActive] is true, none while it is false.
    Whenever [refreshAccessToken] is entered while [refreshActive] is true
    it appends the pair of options and callback to the retry queue and
    returns without a token request.  And any number of authentication
    failures, at least one, that arrive while no token call has completed,
    starting with none pending, make exactly one token request. *)
Theorem single_flight_refresh
    (ci cs : string) (v : option string) (evs failures : list event)
    (c : Session) (o : Options) (cb : option fn) :
  let w := run (boot ci cs v) evs in
  List.length (pendingToken w) <= 1
  /\ List.length (pendingToken w) = (if refreshActive (session w) then 1 else 0)
  /\ (refreshActive c = true ->
      refreshAccessToken o cb c
      = mkResult (set_retryQueue (retryQueue c ++ [(o, cb)]) c) [] (Return tt))
  /\ (refreshActive (session w) = false ->
      failures <> [] ->
      authFailures w failures = true ->
      List.length (tokenRequests (history (run w failures)))
      = S (List.length (tokenRequests (history w)))
      /\ List.length (pendingToken (run w failures)) = 1).
Proof.
  intros w. split; [|split; [|split]].
  - pose proof (inv_single _ (Inv_reachable ci cs v evs)) as H.
    fold w in H. destruct (refreshActive (session w)); lia.
  - apply (inv_single _ (Inv_reachable ci cs v evs)).
  - intros Hra. rewrite refreshAccessToken_run, Hra.
    destruct c; simpl in *; subst; reflexivity.
  - intros Hra Hne Hfs.
    destruct (authFailures_run failures w Hfs) as (H1 & _ & H3).
    rewrite Hra in H1. split.
    + destruct failures; [congruence | lia].
    + pose proof (inv_single _ (Inv_run failures w
                                  (Inv_reachable ci cs v evs))) as H.
      rewrite (H3 Hne) in H. exact H.
Qed.

Lemma single_flight_refresh_witness :
  (let w := run (boot "id" "secret" None) threeCalls in
   List.length (tokenRequests (history (run w threeFailures))) = 1
   /\ List.length (pendingToken (run w threeFailures)) = 1)
  /\ (let c := session (run (boot "id" "secret" None)
                          (threeCalls ++ firstn 1 threeFailures)) in
      refreshAccessToken someOptions None c
      = mkResult (set_retryQueue (retryQueue c ++ [(someOptions, None)]) c)
          [] (Return tt)).
Proof.
  split.
  - apply (single_flight_refresh "id" "secret" None threeCalls threeFailures
             (PokitDok "id" "secret" None) someOptions None).
    + reflexivity.
    + discriminate.
    + vm_compute. reflexivity.
  - apply (single_flight_refresh "id" "secret" None [] []
             (session (run (boot "id" "secret" None)
                         (threeCalls ++ firstn 1 threeFailures)))
             someOptions None).
    vm_compute. reflexivity.
Defined.

(** C2.  Refresh failure.  When the token call completes with a status
    other than 200, the handler sets [refreshActive] to false, empties the
    retry queue and calls the callback of the request that started this
    refresh, and no other, with the body of the token response as the
    error.  The callback of every other request that was in the queue is
    never called, whatever happens afterwards. *)
Theorem refresh_failure
    (ci cs : string) (v : option string) (evs after : list event)
    (i : nat) (err : option jserror) (r : Response) (body : value)
    (o : Options) (cb : option fn) :
  let w := run (boot ci cs v) evs in
  let w' := step w (TokenCompletes i err (Some r) body) in
  nth_error (pendingToken w) i = Some (o, cb) ->
  statusCode r <> 200%Z ->
  refreshHandler cb err (Some r) body (session w)
  = mkResult (set_retryQueue [] (set_refreshActive false (session w)))
      (calls cb (res_body r) (AResponse r)) (Return tt)
  /\ refreshActive (session w') = false
  /\ retryQueue (session w') = []
  /\ history w' = history w ++ calls cb (res_body r) (AResponse r)
  /\ (forall o' cb',
        In (o', cb') (retryQueue (session w)) ->
        oid o' <> oid o ->
        answered (oid o') (run w' after) = 0).
Proof.
  intros w w' Hnth Hs.
  pose proof (Inv_reachable ci cs v evs) as HI. fold w in HI.
  assert (Hrun : refreshHandler cb err (Some r) body (session w)
                 = mkResult
                     (set_retryQueue [] (set_refreshActive false (session w)))
                     (calls cb (res_body r) (AResponse r)) (Return tt)).
  { rewrite refreshHandler_run. cbv zeta.
    apply Z.eqb_neq in Hs. rewrite Hs. reflexivity. }
  assert (Hw' : w' = mkWorld
                       (set_retryQueue [] (set_refreshActive false (session w)))
                       (pendingApi w) (remove_nth i (pendingToken w))
                       (history w ++ calls cb (res_body r) (AResponse r))
                       (nextOid w)).
  { unfold w', step. rewrite Hnth, Hrun. unfold absorb. tidy. reflexivity. }
  split; [exact Hrun|]. rewrite Hw'. repeat split.
  intros o' cb' Hin Hne.
  pose proof (occurrences_In _ _ Hin) as Hq. cbn [fst] in Hq.
  pose proof (inv_once _ HI (oid o')) as Honce.
  assert (Hlt : oid o' < nextOid w).
  { destruct (le_lt_dec (nextOid w) (oid o')) as [Hle|]; [|assumption].
    pose proof (inv_fresh _ HI _ Hle) as Hf. unfold queued in Hf. lia. }
  assert (Hcb : forall f, cb = Some f -> f = oid o).
  { intros f ->. apply (inv_own _ HI), in_or_app. right.
    eapply (inv_trigger _ HI), nth_error_In; eauto. }
  rewrite <- Hw'.
  assert (Hg : gone (oid o') w').
  { rewrite Hw'. unfold gone. tidy. unfold queued in Honce. lia. }
  destruct (gone_run after w' (oid o') (Inv_step _ _ HI) Hg) as [_ ->].
  rewrite Hw'. tidy. unfold queued in Honce.
  destruct cb as [f|]; tidy; [|lia].
  rewrite (Hcb f eq_refl). destruct (Nat.eq_dec (oid o) (oid o')); lia.
Qed.

Lemma refresh_failure_witness :
  let w := run (boot "id" "secret" None) (threeCalls ++ threeFailures) in
  let w' :=
    step w (TokenCompletes 0 None (Some badRequest) (Str "invalid_client")) in
  refreshActive (session w') = false
  /\ retryQueue (session w') = []
  /\ history w'
     = history w ++ [Call 0 (Str "invalid_client") (AResponse badRequest)]
  /\ answered 2 (run w' threeCalls) = 0.
Proof.
  intros w w'.
  destruct (refresh_failure "id" "secret" None (threeCalls ++ threeFailures)
              threeCalls 0 None badRequest (Str "invalid_client")
              (dispatched (PokitDok "id" "secret" None) "null"
                 (mkOptions 0 "/activities/" (Some "GET") Undefined Undefined
                    Undefined None None))
              (Some 0))
    as (_ & H1 & H2 & H3 & H4).
  - reflexivity.
  - discriminate.
  - split; [exact H1|]. split; [exact H2|]. split; [exact H3|].
    apply (H4 (dispatched (PokitDok "id" "secret" None) "null"
                 (mkOptions 2 "/plans/" (Some "GET") Undefined Undefined
                    Undefined None None))
              (Some 2)).
    + vm_compute. auto.
    + discriminate.
Defined.





(** C5.  A transport error, with no response: the completion handler of
    [apiRequest] reads [res.statusCode] of an undefined [res] and throws;
    it calls nothing, queues nothing and starts no refresh. *)
Theorem transport_error_throws
    (o : Options) (cb : option fn) (message : string) (c : Session) :
  apiHandler o cb (Some (Error message)) None Undefined c
  = mkResult c [] (Throw TypeError).
Proof.
  rewrite apiHandler_run, preparse_other; [reflexivity | discriminate].
Qed.

(** C6.  Status 200 with the body [{], which starts like an object and is
    not JSON: the first [JSON.parse] of the handler is outside the [try],
    its exception leaves the handler and the callback is not called. *)
Theorem malformed_body_not_passed_through
    (n : nat) (p : string) (m : option string) (q fd : value)
    (cb : option fn) (c : Session) :
  apiHandler (mkOptions n p m q Undefined fd None None) cb None
    (Some (mkResponse 200 (Str "{"))) (Str "{") c
  = mkResult c [] (Throw SyntaxError).
Proof.
  apply apiHandler_malformed; [reflexivity | vm_compute; reflexivity].
Qed.

(** C7.  Status 500 with the body [{]: the same first [JSON.parse] throws,
    and the callback is not called. *)
Theorem server_error_not_passed_through
    (n : nat) (p : string) (m : option string) (q fd : value)
    (cb : option fn) (c : Session) :
  apiHandler (mkOptions n p m q Undefined fd None None) cb None
    (Some (mkResponse 500 (Str "{"))) (Str "{") c
  = mkResult c [] (Throw SyntaxError).
Proof.
  apply apiHandler_malformed; [reflexivity | vm_compute; reflexivity].
Qed.

(** C8.  At most once.  On a connection made by the constructor and driven
    by any events, the callback of a request is called at most once: a
    request is pending, or queued, or has had its callback called, never
    two of these and none of them twice.  The retry queue and the replay
    hand on the callback they were given. *)
Theorem callback_at_most_once
    (ci cs : string) (v : option string) (evs : list event) (k : nat)
    (c : Session) (o : Options) (cb : option fn) (token : string)
    (q : list (Options * option fn)) :
  let w := run (boot ci cs v) evs in
  answered k w <= 1
  /\ pending k w + queued k w + answered k w <= 1
  /\ In (o, cb) (retryQueue (state (refreshAccessToken o cb c)))
  /\ map snd (replayed c token q) = rev (map snd q).
Proof.
  intros w.
  pose proof (inv_once _ (Inv_reachable ci cs v evs) k) as H. fold w in H.
  split; [lia|]. split; [exact H|]. split.
  - rewrite refreshAccessToken_run. cbn [state retryQueue set_refreshActive
      set_retryQueue]. apply in_or_app. right. left. reflexivity.
  - unfold replayed. rewrite map_map. cbn [snd]. apply map_rev.
Qed.



(** C10.  A body the transport has already parsed.  With [options.json]
    set, status 200 and a body that is an object, the first statement of
    the handler does nothing, the [JSON.parse] of the last statement throws
    and is caught, and the callback gets null and the object as it is. *)
Theorem parsed_body_passed_through
    (o : Options) (cb : option fn) (err : option jserror) (r : Response)
    (props : list (string * value)) (c : Session) :
  truthy (json o) = true ->
  statusCode r = 200%Z ->
  preparse o (Some r) (Obj props) = inr (Some r, Obj props)
  /\ (exists e, JSON.parse (Obj props) = inl e)
  /\ apiHandler o cb err (Some r) (Obj props) c
     = mkResult c (calls cb Null (AData (Obj props))) (Return tt).
Proof.
  intros Hj Hs. split; [apply preparse_json, Hj|].
  split; [apply parse_object_throws|].
  rewrite (apiHandler_ok_other o cb err r (Obj props) c
             (preparse_json _ _ _ Hj) Hs).
  rewrite parse_or_raw_object. reflexivity.
Qed.

Lemma parsed_body_passed_through_witness :
  apiHandler someOptions (Some 7) None
    (Some (mkResponse 200 (Obj [("data", Arr [])])))
    (Obj [("data", Arr [])]) (PokitDok "id" "secret" None)
  = mkResult (PokitDok "id" "secret" None)
      [Call 7 Null (AData (Obj [("data", Arr [])]))] (Return tt).
Proof.
  apply (parsed_body_passed_through someOptions (Some 7) None
           (mkResponse 200 (Obj [("data", Arr [])])) [("data", Arr [])]
           (PokitDok "id" "secret" None) eq_refl eq_refl).
Defined.

(* ===================================================================== *)
(** * Examples *)
(* ===================================================================== *)

(** Status 200 and the body [{"data":[{"id":"1"}]}]: the callback gets
    null and the object. *)
Example ok_response_example (cb : option fn) (c : Session) :
  let text := quoted "{'data':[{'id':'1'}]}" in
  apiHandler plainOptions cb None (Some (mkResponse 200 (Str text)))
    (Str text) c
  = mkResult c
      (calls cb Null (AData (Obj [("data", Arr [Obj [("id", Str "1")]])])))
      (Return tt).
Proof.
  apply apiHandler_ok_object; reflexivity.
Qed.

(** Status 200 and a body that is no JSON and starts with no brace: the
    callback gets null and the body as it is. *)
Example raw_response_example (cb : option fn) (c : Session) :
  apiHandler plainOptions cb None (Some (mkResponse 200 (Str "pong")))
    (Str "pong") c
  = mkResult c (calls cb Null (AData (Str "pong"))) (Return tt).
Proof.
  rewrite apiHandler_ok_other; [|reflexivity|reflexivity].
  vm_compute. reflexivity.
Qed.

(** Status 500 and a body that starts with no brace: the callback gets the
    body and the response. *)
Example server_error_example (cb : option fn) (c : Session) :
  let r := mkResponse 500 (Str "Internal Server Error") in
  apiHandler plainOptions cb None (Some r) (Str "Internal Server Error") c
  = mkResult c (calls cb (Str "Internal Server Error") (AResponse r))
      (Return tt).
Proof.
  intros r.
  apply (apiHandler_passthrough _ _ _ _ _ r (Str "Internal Server Error"));
    [reflexivity | reflexivity | discriminate].
Qed.

(** With [options.json] set and the array [[1]] as body, the callback gets
    the number 1: [JSON.parse] prints the array as [1] and reads that. *)
Example parsed_array_example (cb : option fn) (c : Session) :
  apiHandler someOptions cb None (Some (mkResponse 200 (Arr [Num "1"])))
    (Arr [Num "1"]) c
  = mkResult c (calls cb Null (AData (Num "1"))) (Return tt).
Proof.
  rewrite apiHandler_ok_other; [|reflexivity|reflexivity].
  vm_compute. reflexivity.
Qed.

(* ===================================================================== *)
(** * More on the pipeline *)
(* ===================================================================== *)

Lemma run_app (w : World) (evs evs' : list event) :
  run w (evs ++ evs') = run (run w evs) evs'.
Proof. apply fold_left_app. Qed.



(** The shape of a world in which one request is pending and nothing
    else goes on. *)
Lemma retry_round (w : World) (o : Options) (cb : option fn)
    (r : Response) (b : value) (tr : Response) (tb token t : value)
    (text : string) :
  pendingApi w = [(o, cb)] ->
  pendingToken w = [] ->
  retryQueue (session w) = [] ->
  refreshActive (session w) = false ->
  (forall s, b <> Str (String "{" s)) ->
  authFailure r b = inr true ->
  statusCode tr = 200%Z ->
  JSON.parse tb = inr token ->
  get_prop token "access_token" = inr t ->
  ToString t = inr text ->
  let w' := run w (retryRound r b tr tb) in
  let c' := set_accessToken t (session w) in
  pendingApi w' = [(dispatched c' text o, cb)]
  /\ pendingToken w' = []
  /\ session w' = c'
  /\ history w'
     = history w
       ++ [TokenRequest (tokenOptions (session w)) o cb;
           Request (dispatched c' text o) cb].
Proof.
  intros Hpa Hpt Hq Hra Hb Ha Hs Hp Hg Ht w' c'.
  unfold w', retryRound, run. cbn [fold_left].
  assert (H1 : step w (ApiCompletes 0 None (Some r) b)
               = mkWorld
                   (set_refreshActive true
                      (set_retryQueue [(o, cb)] (session w)))
                   [] [(o, cb)]
                   (history w ++ [TokenRequest (tokenOptions (session w)) o cb])
                   (nextOid w)).
  { unfold step. rewrite Hpa. cbn [nth_error].
    rewrite (apiHandler_auth o cb None (Some r) b r b (session w)
               (preparse_other o (Some r) b Hb) Ha).
    rewrite refreshAccessToken_run, Hra, Hq, Hpt. reflexivity. }
  rewrite H1. clear H1.
  unfold step. cbn [pendingToken nth_error session pendingApi history nextOid].
  rewrite refreshHandler_run. cbv zeta. rewrite Hs, Hp, Hg, Ht.
  cbn [negb Z.eqb Pos.eqb]. unfold absorb.
  cbn [state effects retryQueue set_retryQueue set_refreshActive
       set_accessToken replayed rev app map fst snd as_requests requests
       tokenRequests remove_nth firstn skipn session pendingApi pendingToken
       history].
  rewrite <- app_assoc.
  destruct (session w) as [i s ve ra qu at0]. cbn in Hq, Hra. subst.
  repeat split.
Qed.

(** X2.  No limit on retries.  As long as the request sent again is
    answered with an authentication failure and the token call succeeds,
    the pipeline starts over: after [n] such rounds there have been [n]
    token calls and [n + 1] sendings of the request, the callback has not
    been called, and the request is pending again. *)
Theorem retry_is_unbounded
    (ci cs : string) (v : option string)
    (p : string) (m : option string) (q j fd : value) (with_cb : bool)
    (r : Response) (b : value) (tr : Response) (tb token t : value)
    (text : string) (n : nat) :
  (forall s, b <> Str (String "{" s)) ->
  authFailure r b = inr true ->
  statusCode tr = 200%Z ->
  JSON.parse tb = inr token ->
  get_prop token "access_token" = inr t ->
  ToString t = inr text ->
  let w :=
    run (boot ci cs v) (Calls p m q j fd with_cb :: retryRounds n r b tr tb) in
  List.length (tokenRequests (history w)) = n
  /\ List.length (requests (history w)) = S n
  /\ called (history w) = []
  /\ List.length (pendingApi w) = 1
  /\ retryQueue (session w) = [].
Proof.
  intros Hb Ha Hs Hp Hg Ht. cbn zeta.
  change (Calls p m q j fd with_cb :: retryRounds n r b tr tb)
    with ([Calls p m q j fd with_cb] ++ retryRounds n r b tr tb).
  rewrite run_app.
  set (w0 := run (boot ci cs v) [Calls p m q j fd with_cb]).
  assert (Hgen : forall n w o cb,
             pendingApi w = [(o, cb)] ->
             pendingToken w = [] ->
             retryQueue (session w) = [] ->
             refreshActive (session w) = false ->
             let w' := run w (retryRounds n r b tr tb) in
             List.length (tokenRequests (history w'))
             = List.length (tokenRequests (history w)) + n
             /\ List.length (requests (history w'))
                = List.length (requests (history w)) + n
             /\ called (history w') = called (history w)
             /\ List.length (pendingApi w') = 1
             /\ retryQueue (session w') = []).
  { clear n. induction n as [|n IH]; intros w o cb Hpa Hpt Hq Hra.
    - cbn. rewrite Hpa, Hq. repeat split; lia.
    - cbn zeta. cbn [retryRounds]. rewrite run_app.
      destruct (retry_round w o cb r b tr tb token t text
                  Hpa Hpt Hq Hra Hb Ha Hs Hp Hg Ht)
        as (Hpa' & Hpt' & Hs' & Hh').
      destruct (IH (run w (retryRound r b tr tb)) _ cb Hpa' Hpt')
        as (I1 & I2 & I3 & I4 & I5).
      + rewrite Hs'. cbn. exact Hq.
      + rewrite Hs'. destruct (session w); cbn in *. exact Hra.
      + rewrite I1, I2, I3, Hh'.
        rewrite tokenRequests_app, requests_app, called_app, !length_app.
        cbn. rewrite app_nil_r. repeat split; try lia; assumption. }
  assert (H0 : pendingApi w0
               = [(dispatched (PokitDok ci cs v) "null"
                     (mkOptions 0 p m q j fd None None),
                   if with_cb then Some 0 else None)]
               /\ history w0
                  = [Request
                       (dispatched (PokitDok ci cs v) "null"
                          (mkOptions 0 p m q j fd None None))
                       (if with_cb then Some 0 else None)])
    by (split; reflexivity).
  destruct H0 as [Hpa0 Hh0].
  destruct (Hgen n w0 _ _ Hpa0 eq_refl eq_refl eq_refl)
    as (I1 & I2 & I3 & I4 & I5).
  rewrite I1, I2, I3, Hh0. cbn. repeat split; assumption.
Qed.

Lemma retry_is_unbounded_witness :
  let w :=
    run (boot "id" "secret" None)
      (Calls "/payers/" (Some "GET") Undefined Undefined Undefined true
       :: retryRounds 5 unauthorized (Str "Unauthorized")
            (mkResponse 200 tokenBody) tokenBody) in
  List.length (tokenRequests (history w)) = 5
  /\ List.length (requests (history w)) = 6
  /\ called (history w) = []
  /\ List.length (pendingApi w) = 1
  /\ retryQueue (session w) = [].
Proof.
  assert (Hp : JSON.parse tokenBody = inr (Obj [("access_token", Str "s3cr3t")]))
    by (vm_compute; reflexivity).
  apply (retry_is_unbounded "id" "secret" None "/payers/" (Some "GET")
           Undefined Undefined Undefined true unauthorized
           (Str "Unauthorized") (mkResponse 200 tokenBody) tokenBody
           (Obj [("access_token", Str "s3cr3t")]) (Str "s3cr3t") "s3cr3t" 5);
    try reflexivity; try exact Hp.
  discriminate.
Defined.

(** X3.  A token call that fails before its status is looked at.  When
    the token call completes with no response (a transport error), or with
    status 200 and a body that is not JSON or is the JSON null, the handler
    throws after clearing [refreshActive]: no callback is called, nothing
    is sent, the token stays as it was, and the retry queue keeps all its
    entries, the request that started the refresh among them, with no token
    call pending. *)
Theorem token_failure_strands_queue
    (ci cs : string) (v : option string) (evs : list event)
    (i : nat) (err : option jserror) (res : option Response) (body : value)
    (o : Options) (cb : option fn) :
  let w := run (boot ci cs v) evs in
  let w' := step w (TokenCompletes i err res body) in
  nth_error (pendingToken w) i = Some (o, cb) ->
  res = None
  \/ (exists r e,
        res = Some r /\ statusCode r = 200%Z /\ JSON.parse body = inl e)
  \/ (exists r,
        res = Some r /\ statusCode r = 200%Z /\ JSON.parse body = inr Null) ->
  (exists e,
      refreshHandler cb err res body (session w)
      = mkResult (set_refreshActive false (session w)) [] (Throw e))
  /\ retryQueue (session w') = retryQueue (session w)
  /\ In (o, cb) (retryQueue (session w'))
  /\ pendingToken w' = []
  /\ refreshActive (session w') = false
  /\ accessToken (session w') = accessToken (session w)
  /\ pendingApi w' = pendingApi w
  /\ history w' = history w.
Proof.
  intros w w' Hnth Hres.
  pose proof (Inv_reachable ci cs v evs) as HI. fold w in HI.
  assert (Hpt : remove_nth i (pendingToken w) = []).
  { pose proof (length_remove_nth i _ _ Hnth) as Hlen.
    pose proof (inv_single _ HI) as H1.
    destruct (refreshActive (session w)); rewrite H1 in Hlen;
      [|discriminate].
    destruct (remove_nth i (pendingToken w)); [reflexivity | discriminate]. }
  assert (Hrun : exists e,
             refreshHandler cb err res body (session w)
             = mkResult (set_refreshActive false (session w)) [] (Throw e)).
  { rewrite refreshHandler_run. cbv zeta.
    destruct Hres as [->|[(r & e & -> & Hs & Hp)|(r & -> & Hs & Hp)]].
    - eauto.
    - rewrite Hs, Hp. cbn [Z.eqb Pos.eqb negb]. eauto.
    - rewrite Hs, Hp. cbn [Z.eqb Pos.eqb negb get_prop]. eauto. }
  split; [exact Hrun|]. destruct Hrun as [e Hrun].
  unfold w', step. rewrite Hnth, Hrun, Hpt. unfold absorb.
  cbn [state effects requests tokenRequests session pendingApi pendingToken
       history]. rewrite !app_nil_r.
  cbn [retryQueue accessToken refreshActive set_refreshActive].
  repeat split.
  eapply (inv_trigger _ HI), nth_error_In. exact Hnth.
Qed.

Lemma token_failure_strands_queue_witness :
  let w := run (boot "id" "secret" None) (threeCalls ++ threeFailures) in
  let w' := step w (TokenCompletes 0 (Some (Error "ETIMEDOUT")) None Undefined) in
  List.length (retryQueue (session w')) = 3
  /\ pendingToken w' = []
  /\ refreshActive (session w') = false
  /\ history w' = history w.
Proof.
  intros w w'.
  destruct (token_failure_strands_queue "id" "secret" None
              (threeCalls ++ threeFailures) 0 (Some (Error "ETIMEDOUT")) None
              Undefined
              (dispatched (PokitDok "id" "secret" None) "null"
                 (mkOptions 0 "/activities/" (Some "GET") Undefined Undefined
                    Undefined None None))
              (Some 0) eq_refl (or_introl eq_refl))
    as (_ & Hq & _ & Hpt & Hra & _ & _ & Hh).
  fold w w' in Hq, Hpt, Hra, Hh. rewrite Hq.
  split; [reflexivity|]. split; [exact Hpt|]. split; [exact Hra | exact Hh].
Defined.



(** X5.  An error body in JSON.  For a request without [options.json], a
    status other than 200, 400 and 401, and a body that is the text of a
    JSON object: the callback gets the parsed object as its error, and the
    response with its body replaced by the parsed object. *)
Theorem error_body_delivered_parsed
    (o : Options) (cb : option fn) (err : option jserror) (r : Response)
    (s : string) (v : value) (c : Session) :
  truthy (json o) = false ->
  res_body r = Str (String "{" s) ->
  JSON.parse (Str (String "{" s)) = inr v ->
  statusCode r <> 200%Z ->
  statusCode r <> 401%Z ->
  statusCode r <> 400%Z ->
  apiHandler o cb err (Some r) (Str (String "{" s)) c
  = mkResult c (calls cb v (AResponse (set_body r v))) (Return tt).
Proof.
  intros Hj Hb Hp H200 H401 H400.
  apply (apiHandler_passthrough o cb err (Some r) (Str (String "{" s))
           (set_body r v) v c).
  - unfold preparse. rewrite Hj, Hp, Hb, Hp. reflexivity.
  - unfold authFailure. cbn [statusCode set_body].
    apply Z.eqb_neq in H401, H400. rewrite H401, H400. reflexivity.
  - exact H200.
Qed.

Lemma error_body_delivered_parsed_witness :
  let text := quoted "{'message':'down'}" in
  apiHandler plainOptions (Some 0) None (Some (mkResponse 503 (Str text)))
    (Str text) (PokitDok "id" "secret" None)
  = mkResult (PokitDok "id" "secret" None)
      [Call 0 (Obj [("message", Str "down")])
         (AResponse (mkResponse 503 (Obj [("message", Str "down")])))]
      (Return tt).
Proof.
  intros text.
  assert (Hp : JSON.parse (Str text) = inr (Obj [("message", Str "down")]))
    by (vm_compute; reflexivity).
  apply (error_body_delivered_parsed plainOptions (Some 0) None
           (mkResponse 503 (Str text)) (quoted "'message':'down'}")
           (Obj [("message", Str "down")]) (PokitDok "id" "secret" None)
           eq_refl eq_refl Hp);
    discriminate.
Defined.



(** X7.  A request whose callback has been called is finished: whatever
    happens afterwards, it is not pending, it is not queued, and its
    callback is not called again. *)
Theorem answered_request_is_finished
    (ci cs : string) (v : option string) (evs more : list event) (k : nat) :
  let w := run (boot ci cs v) evs in
  answered k w = 1 ->
  pending k (run w more) = 0
  /\ queued k (run w more) = 0
  /\ answered k (run w more) = 1.
Proof.
  intros w Ha.
  pose proof (Inv_reachable ci cs v evs) as HI. fold w in HI.
  pose proof (inv_once _ HI k) as Honce.
  assert (Hg : gone k w).
  { split; [|lia].
    destruct (le_lt_dec (nextOid w) k) as [Hle|]; [|assumption].
    pose proof (inv_fresh _ HI k Hle). lia. }
  destruct (gone_run more w k HI Hg) as [[_ H0] H1].
  rewrite H1. repeat split; lia.
Qed.

Lemma answered_request_is_finished_witness :
  let w :=
    run (boot "id" "secret" None)
      (threeCalls
       ++ [ApiCompletes 0 None (Some (mkResponse 200 (Str "pong")))
             (Str "pong")]) in
  pending 0 (run w threeFailures) = 0
  /\ queued 0 (run w threeFailures) = 0
  /\ answered 0 (run w threeFailures) = 1.
Proof.
  apply (answered_request_is_finished "id" "secret" None
           (threeCalls
            ++ [ApiCompletes 0 None (Some (mkResponse 200 (Str "pong")))
                  (Str "pong")])
           threeFailures 0).
  vm_compute. reflexivity.
Defined.




(* ===================================================================== *)
(** * The credentials in the token call *)
(* ===================================================================== *)









(** A colon in the client id makes the pair ambiguous. *)
Example credentials_with_colon :
  tokenOptions (PokitDok "a:b" "c" None) = tokenOptions (PokitDok "a" "b:c" None).
Proof. reflexivity. Qed.

(* ===================================================================== *)
(** * Properties of the resource functions *)
(* ===================================================================== *)

(** X10.  Missing options.  Called with undefined or null options,
    [activities] asks for the list of activities, with an empty query and
    no transition, while [providers] and [tradingPartners] throw a
    TypeError before any request is made. *)
Theorem missing_options (v : value) (cb : option fn) :
  v = Undefined \/ v = Null ->
  activities (Val v) cb
  = inr (mkDescriptor "/activities/" "GET" (Val (Obj []))
           (Val (Obj [("transition", Undefined)])) (Val Undefined),
         cb)
  /\ providers (Val v) cb = inl TypeError
  /\ tradingPartners (Val v) cb = inl TypeError.
Proof. intros [->| ->]; repeat split. Qed.

Lemma missing_options_witness :
  activities (Val Undefined) (Some 3)
  = inr (mkDescriptor "/activities/" "GET" (Val (Obj []))
           (Val (Obj [("transition", Undefined)])) (Val Undefined),
         Some 3)
  /\ providers (Val Undefined) (Some 3) = inl TypeError
  /\ tradingPartners (Val Undefined) (Some 3) = inl TypeError.
Proof. apply (missing_options Undefined (Some 3)). left. reflexivity. Defined.

(** X11.  The callback as the only argument.  Given a function for
    [options], [activities], [plans] and [tradingPartners] take it for the
    callback, whatever the second argument, and ask for the list;
    [activities] and [plans] also pass the function on as the query.
    [providers] does not: it keeps the second argument as the callback. *)
Theorem callback_as_only_argument (f : fn) (cb : option fn) :
  activities (Fun f) cb
  = inr (mkDescriptor "/activities/" "GET" (Fun f)
           (Val (Obj [("transition", Undefined)])) (Val Undefined),
         Some f)
  /\ plans (Fun f) cb
     = inr (mkDescriptor "/plans/" "GET" (Fun f) (Val Undefined)
              (Val Undefined),
            Some f)
  /\ tradingPartners (Fun f) cb
     = inr (mkDescriptor "/tradingpartners/" "GET" (Val Undefined)
              (Val Undefined) (Val Undefined),
            Some f)
  /\ providers (Fun f) cb
     = inr (mkDescriptor "/providers/" "GET" (Fun f) (Val Undefined)
              (Val Undefined),
            cb).
Proof. repeat split. Qed.







